(** * Free fall toward a central mass with adaptive RK4 (HW4/mp2.py)

    A shallow embedding of [HW4/mp2.py]: the physics kernels
    ([acceleration], [vel_dispersion]), the fixed step integrator
    ([rk4_step]), the adaptive driver ([time_to_schwarzschild]) and the
    sweep orchestrator ([parameter_sweep]).

    Numbers.  The program computes with binary64 floats; the embedding
    gives the arithmetic its real-number meaning ([R] of the Standard
    Library): rounding, overflow and NaN are not modelled.  A NumPy array
    of dimension one is a [list R]; the position and the velocities of one
    run are assumed to share their length, as the program's callers do.

    Failures.  A scalar division by zero raises [ZeroDivisionError] in
    functions compiled by [numba.njit] (its default error model is
    Python's); a failing configuration check raises [ValueError].  Both
    are values of the error monad [M].  The driver's [while] loop need
    not terminate, so the loop takes fuel and reports [OutOfFuel] when it
    runs dry. *)

From Stdlib Require Import String Reals Lra Lia ZArith QArith Qreals.
From stdpp Require Import base list.

(** ** The error monad *)

Inductive failure : Type :=
  | ZeroDivisionError
  | ValueError (msg : string)
  | IndexError
  | OutOfFuel.

Inductive M (A : Type) : Type :=
  | Ok (a : A)
  | Fail (e : failure).
Arguments Ok {A} a.
Arguments Fail {A} e.

Definition bind {A B : Type} (m : M A) (k : A -> M B) : M B :=
  match m with
  | Ok a => k a
  | Fail e => Fail e
  end.

Notation "'let*' x ':=' m 'in' k" := (bind m (fun x => k))
  (at level 10, x name, m at level 100, k at level 200).
Notation "'let*' ' p ':=' m 'in' k" := (bind m (fun x => let 'p := x in k))
  (at level 10, p pattern, m at level 100, k at level 200).

(** ** Vectors: NumPy arrays of dimension one *)

Module Vec.
Local Open Scope R_scope.

Definition vec : Type := list R.

(** [a + b], [a - b] on arrays, [c * a] and [a / c] with a scalar.  The
    sum and the difference are NumPy's on arrays of the same length; on
    other lengths NumPy broadcasts or raises, which is not modelled, and
    the statements that a step returns assume the lengths agree. *)
Definition add (a b : vec) : vec := zip_with Rplus a b.
Definition sub (a b : vec) : vec := zip_with Rminus a b.
Definition scale (c : R) (a : vec) : vec := map (Rmult c) a.
Definition divs (a : vec) (c : R) : vec := map (fun x => x / c) a.

(** [np.zeros_like(a)] *)
Definition zeros_like (a : vec) : vec := map (fun _ => 0) a.

(** [np.linalg.norm(a)]: the Euclidean norm. *)
Definition sumsq (a : vec) : R := foldr (fun x acc => x * x + acc) 0 a.
Definition norm (a : vec) : R := sqrt (sumsq a).

End Vec.

Import Vec.
Local Open Scope R_scope.

(** ** Physics kernels *)

(** [acceleration(r)]: [norm < 1e-10] returns [np.zeros_like(r)],
    otherwise [-1/norm**3 * r / 4], which Python reads as
    [(((-1) / norm**3) * r) / 4]. *)
Definition acceleration (r : vec) : vec :=
  let norm := norm r in
  if Rlt_dec norm 1e-10 then zeros_like r
  else divs (scale (-1 / norm ^ 3) r) 4.

(** [vel_dispersion(v, A, B)]: [-A/(np.linalg.norm(v)**3 + B) * v].  The
    scalar quotient is taken first; there is no guard, so a zero
    denominator raises. *)
Definition vel_dispersion (v : vec) (A B : R) : M vec :=
  let den := Vec.norm v ^ 3 + B in
  if Req_dec_T den 0 then Fail ZeroDivisionError
  else Ok (scale (- A / den) v).

(** ** Fixed step integrator *)

(** [rk4_step(r, v, dt, alpha_dispersion, A, B)]; the four calls of
    [vel_dispersion] are made whatever [alpha_dispersion] is. *)
Definition rk4_step (r v : vec) (dt alpha_dispersion A B : R) : M (vec * vec) :=
  let* d1 := vel_dispersion v A B in
  let k1_v := add (acceleration r) (scale alpha_dispersion d1) in
  let k1_r := v in
  let* d2 := vel_dispersion (add v (scale (0.5 * dt) k1_v)) A B in
  let k2_v := add (acceleration (add r (scale (0.5 * dt) k1_r)))
                  (scale alpha_dispersion d2) in
  let k2_r := add v (scale (0.5 * dt) k1_v) in
  let* d3 := vel_dispersion (add v (scale (0.5 * dt) k2_v)) A B in
  let k3_v := add (acceleration (add r (scale (0.5 * dt) k2_r)))
                  (scale alpha_dispersion d3) in
  let k3_r := add v (scale (0.5 * dt) k2_v) in
  let* d4 := vel_dispersion (add v (scale dt k3_v)) A B in
  let k4_v := add (acceleration (add r (scale dt k3_r)))
                  (scale alpha_dispersion d4) in
  let k4_r := add v (scale dt k3_v) in
  let r_next :=
    add r (scale (dt / 6)
             (add (add (add k1_r (scale 2 k2_r)) (scale 2 k3_r)) k4_r)) in
  let v_next :=
    add v (scale (dt / 6)
             (add (add (add k1_v (scale 2 k2_v)) (scale 2 k3_v)) k4_v)) in
  Ok (r_next, v_next).

(** The same step with no drag term at all: the two-body free fall
    dynamics [dr/dt = v], [dv/dt = acceleration(r)]. *)
Definition rk4_free_fall (r v : vec) (dt : R) : vec * vec :=
  let k1_v := acceleration r in
  let k1_r := v in
  let k2_v := acceleration (add r (scale (0.5 * dt) k1_r)) in
  let k2_r := add v (scale (0.5 * dt) k1_v) in
  let k3_v := acceleration (add r (scale (0.5 * dt) k2_r)) in
  let k3_r := add v (scale (0.5 * dt) k2_v) in
  let k4_v := acceleration (add r (scale dt k3_r)) in
  let k4_r := add v (scale dt k3_v) in
  (add r (scale (dt / 6)
            (add (add (add k1_r (scale 2 k2_r)) (scale 2 k3_r)) k4_r)),
   add v (scale (dt / 6)
            (add (add (add k1_v (scale 2 k2_v)) (scale 2 k3_v)) k4_v))).

(** ** Adaptive integration driver *)

(** [int(x)] on a float: truncation toward zero.  The result is an
    unbounded integer; the program's is a 64-bit one, the same for
    [|x| < 2^63]. *)
Definition int_trunc (x : R) : Z :=
  if Rle_dec 0 x then Int_part x else (- Int_part (- x))%Z.

(** [num_steps = int(tf / dt)], on the exact quotient.  The program
    rounds the quotient to binary64 first, which can move it across an
    integer, but not across [2]: for binary64 [tf] and [dt] the rounded
    quotient is below [2] exactly when the exact one is. *)
Definition num_steps (tf dt : R) : M Z :=
  if Req_dec_T dt 0 then Fail ZeroDivisionError
  else Ok (int_trunc (tf / dt)).

(** Python's [min(a, b)]: the first argument unless the second is smaller. *)
Definition py_min (a b : R) : R := if Rlt_dec b a then b else a.

(** [rho**(1/4)], the fourth root.  It is meaningful for [0 <= rho]; a
    negative [rho] gives NaN in the program and is outside this model. *)
Definition pow_quarter (rho : R) : R := sqrt (sqrt rho).

(** The local variables of [time_to_schwarzschild] that live across
    iterations of its [while] loop. *)
Record loop_state : Type := LoopState {
  st_r : vec;
  st_v : vec;
  st_dt : R;
  st_t : R;
  st_i : Z
}.

(** The error estimate of one iteration: [norm] after its floor, and
    [rho]. *)
Definition floored_norm (r1 r2 : vec) : R :=
  let norm := norm (sub r2 r1) in
  if Rlt_dec norm 1e-20 then 1e-20 else norm.

Definition rho_of (dt tol : R) (r1 r2 : vec) : R :=
  30 * dt * tol / floored_norm r1 r2.

(** One pass through the body of the [while] loop (lines 56 to 73).  The
    result is the state after the pass and whether the final test
    [np.linalg.norm(r) < 1e-7] held, in which case the function returns
    [st_t] of that state. *)
Definition loop_body (tol alpha_dispersion A B : R) (s : loop_state)
  : M (loop_state * bool) :=
  let* '(r1, v1) := rk4_step (st_r s) (st_v s) (st_dt s) alpha_dispersion A B in
  let* '(r1, v1) := rk4_step r1 v1 (st_dt s) alpha_dispersion A B in
  let* '(r2, v2) := rk4_step (st_r s) (st_v s) (2 * st_dt s) alpha_dispersion A B in
  let rho := rho_of (st_dt s) tol r1 r2 in
  let s1 :=
    if Rge_dec rho 1
    then LoopState r1 v1 (st_dt s) (st_t s + 2 * st_dt s) (st_i s + 1)
    else s in
  let dt' := py_min (st_dt s * pow_quarter rho) (2 * st_dt s) in
  let s2 := LoopState (st_r s1) (st_v s1) dt' (st_t s1) (st_i s1) in
  Ok (s2, if Rlt_dec (norm (st_r s2)) 1e-7 then true else false).

(** How the loop was left: by the [return t] inside it, or by its
    condition [i < num_steps//2] turning false. *)
Inductive exit_kind : Type := Crossed | Exhausted.

Record run : Type := Run {
  run_exit : exit_kind;
  run_state : loop_state;
  run_iterations : nat   (* passes through the loop body, a ghost counter *)
}.

(** The [while i < num_steps//2] loop; [budget] is [num_steps//2] and
    [n] counts the passes made so far. *)
Fixpoint adaptive_loop (fuel : nat) (budget : Z)
    (tol alpha_dispersion A B : R) (n : nat) (s : loop_state) : M run :=
  match fuel with
  | O => Fail OutOfFuel
  | S fuel' =>
      if (st_i s <? budget)%Z then
        let* '(s', crossed) := loop_body tol alpha_dispersion A B s in
        if crossed : bool then Ok (Run Crossed s' (S n))
        else adaptive_loop fuel' budget tol alpha_dispersion A B (S n) s'
      else Ok (Run Exhausted s n)
  end.

Definition init_state (r0 v0 : vec) (dt : R) : loop_state :=
  LoopState r0 v0 dt 0 0.

(** The whole run of [time_to_schwarzschild], with its final state. *)
Definition run_to_schwarzschild (fuel : nat) (r0 v0 : vec)
    (dt tf tol alpha_dispersion A B : R) : M run :=
  let* num_steps := num_steps tf dt in
  adaptive_loop fuel (num_steps / 2)%Z tol alpha_dispersion A B 0
    (init_state r0 v0 dt).

(** [time_to_schwarzschild(r0, v0, dt, tf, tol, alpha_dispersion, A, B)] *)
Definition time_to_schwarzschild (fuel : nat) (r0 v0 : vec)
    (dt tf tol alpha_dispersion A B : R) : M R :=
  let* out := run_to_schwarzschild fuel r0 v0 dt tf tol alpha_dispersion A B in
  match run_exit out with
  | Crossed => Ok (st_t (run_state out))
  | Exhausted => Ok tf
  end.

(** ** Sweep orchestrator *)

(** An index triple [(i, j, k)] of the parameter grid. *)
Definition cell : Type := nat * nat * nat.

(** The results array: [results[i, j, k]] is [T !! i !! j !! k]. *)
Abbreviation tensor := (list (list (list R))).

(** [np.zeros((a, b, c))] *)
Definition zeros (a b c : nat) : tensor :=
  replicate a (replicate b (replicate c 0)).

(** [results[i, j, k] = t], for an index inside the array. *)
Definition tensor_set (T : tensor) (c : cell) (t : R) : tensor :=
  let '(i, j, k) := c in alter (alter (<[k := t]>) j) i T.

Definition tensor_get (T : tensor) (c : cell) : option R :=
  let '(i, j, k) := c in
  match (T : list (list (list R))) !! i with
  | Some plane =>
      match plane !! j with
      | Some row => row !! k
      | None => None
      end
  | None => None
  end.

(** [results.shape] of an array built by [zeros]. *)
Definition has_shape (T : tensor) (a b c : nat) : Prop :=
  length T = a /\
  Forall (fun plane => length plane = b /\
                       Forall (fun row : list R => length row = c) plane) T.

(** What [np.array(v0_values)] can be, as far as the validation looks:
    its number of dimensions and, for one and two dimensions, its
    entries. *)
Inductive ndarray : Type :=
  | Arr0 (x : R)
  | Arr1 (xs : list R)
  | Arr2 (rows : list vec)
  | ArrN (ndim_minus_3 : nat).

Definition ndim (a : ndarray) : nat :=
  match a with
  | Arr0 _ => 0
  | Arr1 _ => 1
  | Arr2 _ => 2
  | ArrN n => 3 + n
  end.

Definition msg_v0_missing : string :=
  "v0_values must be provided (e.g., np.array([[0, 1.0, 0]]))".
Definition msg_v0_shape : string :=
  "v0_values must be a 2D array (list of vectors)".
Definition msg_backend (backend : string) : string :=
  "Unknown backend '" ++ backend ++
  "'. Choose 'thread', 'process' or 'multiprocessing'.".

(** Lines 122 to 133: the checks on [v0_values]; the result is the list
    of initial velocity vectors. *)
Definition validate_v0 (v0_values : option ndarray) : M (list vec) :=
  match v0_values with
  | None => Fail (ValueError msg_v0_missing)
  | Some a =>
      if negb (ndim a =? 2)%nat then
        match a with
        | Arr1 xs =>
            if (0 <? length xs)%nat then Ok [xs]       (* reshape(1, -1) *)
            else Fail (ValueError msg_v0_shape)
        | _ => Fail (ValueError msg_v0_shape)
        end
      else
        match a with
        | Arr2 rows => Ok rows
        | _ => Fail (ValueError msg_v0_shape)
        end
  end.

(** Lines 139 to 141: the list comprehension over the three ranges. *)
Definition all_params (NA NB NV : nat) : list cell :=
  flat_map (fun i =>
    flat_map (fun j =>
      map (fun k => (i, j, k)) (seq 0 NV)) (seq 0 NB)) (seq 0 NA).

(** [range(start, stop, step)] for a positive [step]; [fuel] bounds the
    number of elements. *)
Fixpoint range_step (fuel start stop step : nat) : list nat :=
  match fuel with
  | O => []
  | S fuel' =>
      if (start <? stop)%nat
      then start :: range_step fuel' (start + step) stop step
      else []
  end.

(** Lines 157 to 160: the chunks. *)
Definition make_chunks (chunk_size : Z) (params : list cell)
  : list (list cell) :=
  if (chunk_size <=? 1)%Z then map (fun p => [p]) params
  else
    let cs := Z.to_nat chunk_size in
    map (fun k => take cs (drop k params))
        (range_step (length params) 0 (length params) cs).

(** The progress bar: [tqdm] yields the items of its argument, unchanged
    and in order. *)
Definition tqdm {A : Type} (it : list A) : list A := it.

(** One simulation run, as both paths call it:
    [time_to_schwarzschild(r0, v0_values[k], dt, tf, tol,
    alpha_dispersion, A_values[i], B_values[j])]. *)
Definition simulate (fuel : nat) (r0 : vec) (v0_values : list vec)
    (dt tf tol alpha_dispersion : R) (A_values B_values : list R)
    (c : cell) : M R :=
  let '(i, j, k) := c in
  match v0_values !! k, A_values !! i, B_values !! j with
  | Some v0_k, Some A_i, Some B_j =>
      time_to_schwarzschild fuel r0 v0_k dt tf tol alpha_dispersion A_i B_j
  | _, _, _ => Fail IndexError
  end.

(** A computation of the sweep: the simulation calls it made, in order,
    and its result. *)
Record traced (A : Type) : Type := Traced {
  simulated : list cell;
  outcome : M A
}.
Arguments Traced {A} simulated outcome.
Arguments simulated {A} t.
Arguments outcome {A} t.

Section Sweep.

(** The simulation of one cell; [parameter_sweep] instantiates it with
    [simulate]. *)
Variable sim : cell -> M R.

(** Lines 150 to 152: the sequential fill. *)
Fixpoint sequential_fill (it : list cell) (log : list cell)
    (results : tensor) : traced tensor :=
  match it with
  | [] => Traced log (Ok results)
  | c :: it' =>
      match sim c with
      | Ok t => sequential_fill it' (log ++ [c]) (tensor_set results c t)
      | Fail e => Traced (log ++ [c]) (Fail e)
      end
  end.

(** [process_chunk_worker]: the list of [(i, j, k, t)] of a chunk. *)
Fixpoint process_chunk_worker (chunk : list cell) (log : list cell)
    (out : list (cell * R)) : traced (list (cell * R)) :=
  match chunk with
  | [] => Traced log (Ok out)
  | c :: chunk' =>
      match sim c with
      | Ok t => process_chunk_worker chunk' (log ++ [c]) (out ++ [(c, t)])
      | Fail e => Traced (log ++ [c]) (Fail e)
      end
  end.

(** The inner loop of the merge: [for (i, j, k, t) in chunk_out:
    results[i, j, k] = t]. *)
Definition write_chunk (results : tensor) (chunk_out : list (cell * R))
  : tensor :=
  fold_left (fun T ct => tensor_set T (fst ct) (snd ct)) chunk_out results.

(** [process_futures] (and the loop over [imap_unordered]): the futures
    are taken in the order [arrival] in which they complete, given by
    their positions in the list of submitted futures; [future.result()]
    raises what the worker raised.  A position outside the list is no
    future and is passed over. *)
Fixpoint process_futures (futures : list (traced (list (cell * R))))
    (arrival : list nat) (results : tensor) : M tensor :=
  match arrival with
  | [] => Ok results
  | n :: arrival' =>
      match futures !! n with
      | Some future =>
          let* chunk_out := outcome future in
          process_futures futures arrival' (write_chunk results chunk_out)
      | None => process_futures futures arrival' results
      end
  end.

(** A pool run: every chunk is submitted, then the results are merged as
    they arrive.  The trace lists the workers' simulation calls chunk by
    chunk in submission order; how the pool interleaves them is not
    modelled. *)
Definition run_pool (chunks : list (list cell)) (arrival : list nat)
    (results : tensor) : traced tensor :=
  let futures := map (fun chunk => process_chunk_worker chunk [] []) chunks in
  Traced (concat (map simulated futures))
         (process_futures futures arrival results).

(** Lines 136 to 216, after the validation of the arguments. *)
Definition sweep_body (NA NB NV : nat) (parallel : bool) (backend : string)
    (chunk_size : Z) (show_progress : bool) (arrival : list nat)
  : traced tensor :=
  let results := zeros NA NB NV in
  let params := all_params NA NB NV in
  if negb parallel then
    let it := if show_progress then tqdm params else params in
    sequential_fill it [] results
  else
    let chunks := make_chunks chunk_size params in
    if String.eqb backend "thread" then run_pool chunks arrival results
    else if String.eqb backend "process" then run_pool chunks arrival results
    else if String.eqb backend "multiprocessing"
    then run_pool chunks arrival results
    else Traced [] (Fail (ValueError (msg_backend backend))).

End Sweep.

(** [parameter_sweep(r0, v0_values, dt, tf, tol, alpha_dispersion,
    A_values, B_values, parallel, max_workers, backend, chunk_size,
    show_progress)].  [max_workers] only sizes the pool and is left out;
    [fuel] bounds each simulation and [arrival] is the order in which the
    pool completes the chunks. *)
Definition parameter_sweep (fuel : nat) (arrival : list nat)
    (r0 : vec) (v0_values : option ndarray) (dt tf tol alpha_dispersion : R)
    (A_values B_values : option (list R)) (parallel : bool)
    (backend : string) (chunk_size : Z) (show_progress : bool)
  : traced tensor :=
  let A_values := match A_values with None => [1] | Some a => a end in
  let B_values := match B_values with None => [1] | Some b => b end in
  match validate_v0 v0_values with
  | Fail e => Traced [] (Fail e)
  | Ok v0_values =>
      sweep_body
        (simulate fuel r0 v0_values dt tf tol alpha_dispersion
                  A_values B_values)
        (length A_values) (length B_values) (length v0_values)
        parallel backend chunk_size show_progress arrival
  end.

(** ** Auxiliary definitions for the proofs *)

(** What the driver's loop maintains when [0 < dt] and [0 <= tol] at the
    call: after [i] accepted steps the step size is at most [2^i] times
    the initial one, and the accumulated time at most
    [2 * dt0 * (2^i - 1)]. *)
Definition loop_invariant (dt0 : R) (s : loop_state) : Prop :=
  (0 <= st_i s)%Z /\
  0 <= st_dt s <= 2 ^ Z.to_nat (st_i s) * dt0 /\
  0 <= st_t s <= 2 * dt0 * (2 ^ Z.to_nat (st_i s) - 1).

(** The kernels on vectors of length one, written on their component. *)
Definition acceleration_line (x : R) : R :=
  if Rlt_dec (Rabs x) 1e-10 then 0 else -1 / Rabs x ^ 3 * x / 4.

Definition rk4_line (r v dt : R) : R * R :=
  let k1_v := acceleration_line r in
  let k1_r := v in
  let k2_v := acceleration_line (r + 0.5 * dt * k1_r) in
  let k2_r := v + 0.5 * dt * k1_v in
  let k3_v := acceleration_line (r + 0.5 * dt * k2_r) in
  let k3_r := v + 0.5 * dt * k2_v in
  let k4_v := acceleration_line (r + dt * k3_r) in
  let k4_r := v + dt * k3_v in
  (r + dt / 6 * (k1_r + 2 * k2_r + 2 * k3_r + k4_r),
   v + dt / 6 * (k1_v + 2 * k2_v + 2 * k3_v + k4_v)).

(** The results of a list of cells, in order: what a worker returns for
    a chunk, and what the sequential fill writes. *)
Fixpoint eval_cells (sim : cell -> M R) (cs : list cell)
  : M (list (cell * R)) :=
  match cs with
  | [] => Ok []
  | c :: cs' =>
      let* t := sim c in
      let* rest := eval_cells sim cs' in
      Ok ((c, t) :: rest)
  end.

(** The chunk results, when every worker returns. *)
Definition chunk_results (sim : cell -> M R) (chunks : list (list cell))
    (outs : list (list (cell * R))) : Prop :=
  Forall2 (fun chunk o => eval_cells sim chunk = Ok o) chunks outs.

(** The assignments [results[i, j, k] = t] a merge makes, in the order
    it makes them: the chunk results in order of arrival. *)
Definition merged_writes (outs : list (list (cell * R)))
    (arrival : list nat) : list (cell * R) :=
  concat (omap (fun n => outs !! n) arrival).

(** The list of chunks of a call of [parameter_sweep] whose [v0_values]
    passed the validation as [v0s]. *)
Definition chunks_of (A_values B_values : option (list R))
    (v0s : list vec) (chunk_size : Z) : list (list cell) :=
  make_chunks chunk_size
    (all_params
       (length (match A_values with None => [1] | Some a => a end))
       (length (match B_values with None => [1] | Some b => b end))
       (length v0s)).

Definition known_backend (backend : string) : Prop :=
  backend = "thread"%string \/ backend = "process"%string \/
  backend = "multiprocessing"%string.

(** ** The window helper of [qdraw.py] *)

Definition DEFAULT_SCREENWIDTH : R := 1000.
Definition DEFAULT_SCREENHEIGHT : R := 1000.
Definition DEFAULT_XMIN : R := 0.
Definition DEFAULT_XMAX : R := 1.
Definition DEFAULT_YMIN : R := 0.
Definition DEFAULT_YMAX : R := 1.

(** [a / b] on Python numbers: a zero divisor raises. *)
Definition py_div (a b : R) : M R :=
  if Req_dec_T b 0 then Fail ZeroDivisionError else Ok (a / b).

(** [int(a * b / c + 0.5)] *)
Definition scaled_pixels (a b c : R) : M R :=
  let* q := py_div (a * b) c in
  Ok (IZR (int_trunc (q + 0.5))).

(** [limits(w, h, x, y)]: fills in the missing ones of the window size
    [(w, h)] and the coordinate ranges [x = (xmin, xmax)],
    [y = (ymin, ymax)].  The sixteen cases follow the source's count of
    the arguments that are not [None]. *)
Definition limits (w h : option R) (x y : option (R * R))
  : M (R * R * (R * R) * (R * R)) :=
  match w, h, x, y with
  (* no parameter is given *)
  | None, None, None, None =>
      Ok (DEFAULT_SCREENWIDTH, DEFAULT_SCREENHEIGHT,
          (DEFAULT_XMIN, DEFAULT_XMAX), (DEFAULT_YMIN, DEFAULT_YMAX))
  (* one parameter is given *)
  | Some w, None, None, None =>
      Ok (w, w, (DEFAULT_XMIN, DEFAULT_XMAX), (DEFAULT_YMIN, DEFAULT_YMAX))
  | None, Some h, None, None =>
      Ok (h, h, (DEFAULT_XMIN, DEFAULT_XMAX), (DEFAULT_YMIN, DEFAULT_YMAX))
  | None, None, Some x, None =>
      Ok (DEFAULT_SCREENWIDTH, DEFAULT_SCREENHEIGHT, x, x)
  | None, None, None, Some y =>
      Ok (DEFAULT_SCREENWIDTH, DEFAULT_SCREENHEIGHT, y, y)
  (* two parameters are given *)
  | Some w, Some h, None, None =>
      let* y0 := py_div (DEFAULT_YMIN * h) w in
      let* y1 := py_div (DEFAULT_YMAX * h) w in
      Ok (w, h, (DEFAULT_XMIN, DEFAULT_XMAX), (y0, y1))
  | None, None, Some x, Some y =>
      let dx := snd x - fst x in
      let dy := snd y - fst y in
      if Rlt_dec dx dy then
        let* w := scaled_pixels DEFAULT_SCREENWIDTH dx dy in
        Ok (w, DEFAULT_SCREENHEIGHT, x, y)
      else
        let* h := scaled_pixels DEFAULT_SCREENHEIGHT dy dx in
        Ok (DEFAULT_SCREENWIDTH, h, x, y)
  | Some w, None, Some x, None => Ok (w, w, x, x)
  | Some w, None, None, Some y => Ok (w, w, y, y)
  | None, Some h, Some x, None => Ok (h, h, x, x)
  | None, Some h, None, Some y => Ok (h, h, y, y)
  (* three parameters are given *)
  | None, Some h, Some x, Some y =>
      let dx := snd x - fst x in
      let dy := snd y - fst y in
      let* w := scaled_pixels h dx dy in
      Ok (w, h, x, y)
  | Some w, None, Some x, Some y =>
      let dx := snd x - fst x in
      let dy := snd y - fst y in
      let* h := scaled_pixels w dy dx in
      Ok (w, h, x, y)
  | Some w, Some h, None, Some y =>
      let* x0 := py_div (fst y * w) h in
      let* x1 := py_div (snd y * w) h in
      Ok (w, h, (x0, x1), y)
  | Some w, Some h, Some x, None =>
      let* y0 := py_div (fst x * h) w in
      let* y1 := py_div (snd x * h) w in
      Ok (w, h, x, (y0, y1))
  (* four parameters are given *)
  | Some w, Some h, Some x, Some y =>
      let dx := snd x - fst x in
      let dy := snd y - fst y in
      if Rlt_dec dx dy then
        let* w' := scaled_pixels h dx dy in
        Ok (w', h, x, y)
      else
        let* h' := scaled_pixels w dy dx in
        Ok (w, h', x, y)
  end.

(** The scale factors and the center a [window] keeps (lines 91 to 93
    of [qdraw.py]). *)
Definition window_factors (width height : R) (xlim ylim : R * R)
  : M (R * R * (R * R)) :=
  let* xfactor := py_div width (snd xlim - fst xlim) in
  let* yfactor := py_div height (snd ylim - fst ylim) in
  Ok (xfactor, yfactor,
      (0.5 * (fst xlim + snd xlim), 0.5 * (fst ylim + snd ylim))).

(** The arguments of [limits] that are given are positive sizes and
    increasing ranges. *)
Definition limits_args_positive (w h : option R) (x y : option (R * R))
  : Prop :=
  match w with Some w => 0 < w | None => True end /\
  match h with Some h => 0 < h | None => True end /\
  match x with Some x => fst x < snd x | None => True end /\
  match y with Some y => fst y < snd y | None => True end.

(** ** The streamer of a [shape] in [qdraw.py] *)

(** The attributes of a [shape] that [trail] and [setpos] read and
    write: the two flags, the two arrays of the streamer, the turtle's
    position and its pen ([true] when down).  What the turtle draws is
    not modelled, and a window is taken to be open. *)
Record shape_state : Type := ShapeState {
  trailon : bool;
  streamon : bool;
  streamx : list R;
  streamy : list R;
  pos : R * R;
  pen : bool
}.

(** [a[1:] = a[:-1]] on an array: every element moves up by one place,
    the first stays and the last is dropped. *)
Definition shift_right (a : list R) : list R :=
  take 1 a ++ take (length a - 1) a.

(** [a[0] = x]; an empty array has no index [0]. *)
Definition set_first (a : list R) (x : R) : M (list R) :=
  match a with
  | [] => Fail IndexError
  | _ :: tl => Ok (x :: tl)
  end.

(** [shape.setpos(x, y)] *)
Definition setpos (p : R * R) (s : shape_state) : M shape_state :=
  if streamon s then
    let sx := shift_right (streamx s) in
    let sy := shift_right (streamy s) in
    let* sx := set_first sx (fst p) in
    let* sy := set_first sy (snd p) in
    Ok (ShapeState (trailon s) (streamon s) sx sy p (pen s))
  else
    Ok (ShapeState (trailon s) (streamon s) (streamx s) (streamy s) p (pen s)).

(** [shape.trail(activate, length)]: [length] is [None] or an integer;
    [None] and [0] select the pen trail, and [ones] refuses a negative
    length. *)
Definition trail (activate : bool) (length : option Z) (s : shape_state)
  : M shape_state :=
  if activate then
    match length with
    | Some n =>
        if (n =? 0)%Z then
          Ok (ShapeState true (streamon s) (streamx s) (streamy s) (pos s) true)
        else if (n <? 0)%Z then
          Fail (ValueError "negative dimensions are not allowed")
        else
          Ok (ShapeState true true
                (replicate (Z.to_nat n) (fst (pos s)))
                (replicate (Z.to_nat n) (snd (pos s)))
                (pos s) (pen s))
    | None =>
        Ok (ShapeState true (streamon s) (streamx s) (streamy s) (pos s) true)
    end
  else if streamon s then
    Ok (ShapeState false false (streamx s) (streamy s) (pos s) (pen s))
  else
    Ok (ShapeState false (streamon s) (streamx s) (streamy s) (pos s) false).

(** A sequence of calls of [setpos], in order. *)
Fixpoint setpos_all (ps : list (R * R)) (s : shape_state) : M shape_state :=
  match ps with
  | [] => Ok s
  | p :: ps' => let* s' := setpos p s in setpos_all ps' s'
  end.

(** [mapcolor(color)] on a string: the eight one-letter codes are
    spelled out, every other string is returned as it is. *)
Definition mapcolor (color : string) : string :=
  if (String.length color =? 1)%nat then
    if String.eqb color "k" then "black"
    else if String.eqb color "r" then "red"
    else if String.eqb color "g" then "green"
    else if String.eqb color "b" then "blue"
    else if String.eqb color "c" then "cyan"
    else if String.eqb color "m" then "magenta"
    else if String.eqb color "y" then "yellow"
    else if String.eqb color "w" then "white"
    else color
  else color.

(** * Properties *)

(** ** The error monad *)

Lemma bind_Ok_inv {A B : Type} (m : M A) (k : A -> M B) (b : B) :
  bind m k = Ok b -> exists a, m = Ok a /\ k a = Ok b.
Proof. destruct m as [a|e]; simpl; [eauto | discriminate]. Qed.

(** ** Vector arithmetic *)

Lemma sumsq_nonneg a : 0 <= sumsq a.
Proof. induction a as [|x a IH]; simpl; [lra | nra]. Qed.

Lemma norm_nonneg a : 0 <= norm a.
Proof. apply sqrt_pos. Qed.

Lemma sumsq_map_mult c a : sumsq (map (Rmult c) a) = c * c * sumsq a.
Proof. induction a as [|x a IH]; simpl; [lra | rewrite IH; ring]. Qed.

Lemma norm_map_mult c a : norm (map (Rmult c) a) = Rabs c * norm a.
Proof.
  unfold norm. rewrite sumsq_map_mult.
  rewrite sqrt_mult_alt by nra.
  f_equal. replace (c * c) with (Rsqr c) by reflexivity.
  apply sqrt_Rsqr_abs.
Qed.

Lemma norm_singleton x : norm [x] = Rabs x.
Proof.
  unfold norm. simpl. rewrite Rplus_0_r.
  replace (x * x) with (Rsqr x) by reflexivity. apply sqrt_Rsqr_abs.
Qed.

Lemma scale_0 a : scale 0 a = zeros_like a.
Proof.
  unfold scale, zeros_like. apply map_ext. intros x. apply Rmult_0_l.
Qed.

Lemma length_add (a b : vec) : length (add a b) = Nat.min (length a) (length b).
Proof. apply length_zip_with. Qed.

(** ** Physics kernels *)

Lemma acceleration_far (r : vec) :
  ~ norm r < 1e-10 ->
  acceleration r = scale (- (1 / (4 * norm r ^ 3))) r.
Proof.
  intros Hn. unfold acceleration.
  destruct (Rlt_dec (norm r) 1e-10) as [Hlt|_]; [contradiction|].
  unfold divs, scale. rewrite map_map. apply map_ext. intros x.
  field. lra.
Qed.

Lemma acceleration_near (r : vec) :
  norm r < 1e-10 -> acceleration r = zeros_like r.
Proof.
  intros Hn. unfold acceleration.
  destruct (Rlt_dec (norm r) 1e-10); [reflexivity | contradiction].
Qed.

Lemma length_acceleration (r : vec) : length (acceleration r) = length r.
Proof.
  unfold acceleration, divs, scale, zeros_like.
  destruct (Rlt_dec _ _); rewrite ?length_map; reflexivity.
Qed.

(** C5: outside the guard, [acceleration(r)] is [-r / (4 |r|^3)]: a
    negative multiple of [r] (antiparallel) of magnitude [1 / (4 |r|^2)];
    inside the guard [|r| < 1e-10] it is the zero vector. *)
Theorem acceleration_inverse_square (r : vec) :
  (1e-10 <= norm r ->
     acceleration r = map (fun x => - x / (4 * norm r ^ 3)) r /\
     (exists c, 0 < c /\ acceleration r = scale (- c) r) /\
     norm (acceleration r) = 1 / (4 * norm r ^ 2)) /\
  (norm r < 1e-10 -> acceleration r = zeros_like r).
Proof.
  split; [| apply acceleration_near].
  intros Hn.
  assert (Hpos : 0 < norm r) by lra.
  assert (Hc : 0 < 1 / (4 * norm r ^ 3)).
  { apply Rdiv_lt_0_compat; [lra|].
    apply Rmult_lt_0_compat; [lra | apply pow_lt; exact Hpos]. }
  rewrite acceleration_far by lra.
  split; [| split].
  - unfold scale. apply map_ext. intros x. field. lra.
  - exists (1 / (4 * norm r ^ 3)). split; [exact Hc | reflexivity].
  - unfold scale. rewrite norm_map_mult.
    rewrite Rabs_Ropp, Rabs_pos_eq by lra.
    field. lra.
Qed.

Lemma acceleration_inverse_square_witness :
  acceleration [0; 1; 0] = map (fun x => - x / (4 * norm [0; 1; 0] ^ 3)) [0; 1; 0]
  /\ acceleration [0; 0; 0] = zeros_like [0; 0; 0].
Proof.
  assert (H1 : norm [0; 1; 0] = 1).
  { unfold norm, sumsq. simpl.
    replace (0 * 0 + (1 * 1 + (0 * 0 + 0))) with 1 by lra. apply sqrt_1. }
  assert (H0 : norm [0; 0; 0] = 0).
  { unfold norm, sumsq. simpl.
    replace (0 * 0 + (0 * 0 + (0 * 0 + 0))) with 0 by lra. apply sqrt_0. }
  split.
  - apply (proj1 (acceleration_inverse_square [0; 1; 0])). rewrite H1. lra.
  - apply (proj2 (acceleration_inverse_square [0; 0; 0])). rewrite H0. lra.
Defined.

Lemma vel_dispersion_defined (v : vec) (A B : R) :
  norm v ^ 3 + B <> 0 ->
  vel_dispersion v A B = Ok (scale (- A / (norm v ^ 3 + B)) v).
Proof.
  intros Hden. unfold vel_dispersion.
  destruct (Req_dec_T (norm v ^ 3 + B) 0); [contradiction | reflexivity].
Qed.

Lemma vel_dispersion_denominator_pos (v : vec) (B : R) :
  0 < B -> norm v ^ 3 + B <> 0.
Proof.
  intros HB. pose proof (pow_le (norm v) 3 (norm_nonneg v)). lra.
Qed.

(** The formula of [vel_dispersion] where its denominator is positive. *)
Lemma vel_dispersion_formula (v : vec) (A B : R) :
  0 < norm v ^ 3 + B ->
  vel_dispersion v A B = Ok (map (fun x => - A * x / (norm v ^ 3 + B)) v).
Proof.
  intros Hden. rewrite vel_dispersion_defined by lra.
  f_equal. unfold scale. apply map_ext. intros x. field. lra.
Qed.

(** C6: with [B = 0] and the zero velocity the denominator is zero and
    [vel_dispersion] divides by it: the call raises, where the claim
    wants the zero vector. *)
Theorem vel_dispersion_zero_denominator_raises :
  vel_dispersion [0; 0; 0] 1 0 = Fail ZeroDivisionError.
Proof.
  unfold vel_dispersion.
  assert (H0 : norm [0; 0; 0] = 0).
  { unfold norm, sumsq. simpl.
    replace (0 * 0 + (0 * 0 + (0 * 0 + 0))) with 0 by lra. apply sqrt_0. }
  rewrite H0.
  destruct (Req_dec_T (0 ^ 3 + 0) 0) as [_|Hne]; [reflexivity|].
  exfalso. apply Hne. simpl. lra.
Qed.

(** ** Fixed step integrator *)

Lemma length_scale (c : R) (a : vec) : length (scale c a) = length a.
Proof. apply length_map. Qed.

Lemma add_scale_0_r (a b : vec) :
  (length a <= length b)%nat -> add a (scale 0 b) = a.
Proof.
  rewrite scale_0. revert b.
  induction a as [|x a IH]; intros [|y b] Hl; simpl in *;
    try reflexivity; try lia.
  unfold add in *. simpl. rewrite Rplus_0_r. f_equal. apply IH. lia.
Qed.

Ltac solve_length :=
  repeat (rewrite ?length_add, ?length_scale, ?length_acceleration);
  lia.

(** With [alpha_dispersion = 0] and a positive [B] the step is the free
    fall step, whatever [A] is. *)
Lemma rk4_step_without_drag (r v : vec) (dt A B : R) :
  0 < B -> length r = length v ->
  rk4_step r v dt 0 A B = Ok (rk4_free_fall r v dt).
Proof.
  intros HB Hlen. unfold rk4_step, rk4_free_fall.
  rewrite vel_dispersion_defined by (apply vel_dispersion_denominator_pos, HB).
  cbv beta iota zeta delta [bind].
  rewrite (add_scale_0_r (acceleration r)) by solve_length.
  rewrite vel_dispersion_defined by (apply vel_dispersion_denominator_pos, HB).
  cbv beta iota zeta delta [bind].
  rewrite (add_scale_0_r (acceleration (add r _))) by solve_length.
  rewrite vel_dispersion_defined by (apply vel_dispersion_denominator_pos, HB).
  cbv beta iota zeta delta [bind].
  rewrite (add_scale_0_r (acceleration (add r (scale (0.5 * dt) (add v _)))))
    by solve_length.
  rewrite vel_dispersion_defined by (apply vel_dispersion_denominator_pos, HB).
  cbv beta iota zeta delta [bind].
  rewrite (add_scale_0_r (acceleration (add r (scale dt _)))) by solve_length.
  reflexivity.
Qed.

(** C7: with [alpha_dispersion = 0], [B = 0] and a particle at rest the
    first call of [vel_dispersion] divides by zero, so the step raises;
    with [B = 1] the same step is the free fall step. *)
Theorem rk4_step_alpha_zero_depends_on_B (dt : R) :
  rk4_step [0; 1; 0] [0; 0; 0] dt 0 0 0 = Fail ZeroDivisionError /\
  rk4_step [0; 1; 0] [0; 0; 0] dt 0 0 1
    = Ok (rk4_free_fall [0; 1; 0] [0; 0; 0] dt).
Proof.
  split.
  - unfold rk4_step.
    assert (Hv : vel_dispersion [0; 0; 0] 0 0 = Fail ZeroDivisionError).
    { unfold vel_dispersion.
      assert (H0 : norm [0; 0; 0] = 0).
      { unfold norm, sumsq. simpl.
        replace (0 * 0 + (0 * 0 + (0 * 0 + 0))) with 0 by lra. apply sqrt_0. }
      rewrite H0.
      destruct (Req_dec_T (0 ^ 3 + 0) 0) as [_|Hne]; [reflexivity|].
      exfalso. apply Hne. simpl. lra. }
    rewrite Hv. reflexivity.
  - apply rk4_step_without_drag; [lra | reflexivity].
Qed.

(** ** Adaptive integration driver *)

Lemma int_trunc_bounds (x : R) (z : Z) :
  0 <= x -> IZR z <= x < IZR z + 1 -> int_trunc x = z.
Proof.
  intros Hx [Hlo Hhi]. unfold int_trunc.
  destruct (Rle_dec 0 x) as [_|Hn]; [| contradiction].
  symmetry. apply Int_part_spec. lra.
Qed.

Lemma num_steps_defined (tf dt : R) :
  dt <> 0 -> num_steps tf dt = Ok (int_trunc (tf / dt)).
Proof.
  intros Hdt. unfold num_steps.
  destruct (Req_dec_T dt 0); [contradiction | reflexivity].
Qed.

Lemma py_min_Rmin (a b : R) : py_min a b = Rmin a b.
Proof.
  unfold py_min, Rmin.
  destruct (Rlt_dec b a), (Rle_dec a b); try reflexivity; lra.
Qed.

Lemma pow_quarter_nonneg (rho : R) : 0 <= pow_quarter rho.
Proof. apply sqrt_pos. Qed.

(** [pow_quarter] is the fourth root. *)
Lemma pow_quarter_fourth_root (rho : R) :
  0 <= rho -> pow_quarter rho ^ 4 = rho.
Proof.
  intros Hrho. unfold pow_quarter.
  replace (sqrt (sqrt rho) ^ 4) with ((sqrt (sqrt rho) ^ 2) ^ 2) by ring.
  rewrite pow2_sqrt by apply sqrt_pos.
  apply pow2_sqrt, Hrho.
Qed.

Lemma pow_quarter_le_1 (rho : R) : rho <= 1 -> pow_quarter rho <= 1.
Proof.
  intros Hrho. unfold pow_quarter.
  destruct (Rle_dec 0 rho) as [Hpos|Hneg].
  - assert (Hs : sqrt rho <= 1).
    { rewrite <- sqrt_1. apply sqrt_le_1_alt, Hrho. }
    rewrite <- sqrt_1. apply sqrt_le_1_alt, Hs.
  - rewrite (sqrt_neg_0 rho) by lra. rewrite sqrt_0. lra.
Qed.

Lemma pow_quarter_ge_2 (rho : R) : 16 <= rho -> 2 <= pow_quarter rho.
Proof.
  intros Hrho. unfold pow_quarter.
  assert (H4 : 4 <= sqrt rho).
  { replace 4 with (sqrt (4 ^ 2)) by (apply sqrt_pow2; lra).
    apply sqrt_le_1_alt. lra. }
  replace 2 with (sqrt (2 ^ 2)) by (apply sqrt_pow2; lra).
  apply sqrt_le_1_alt. lra.
Qed.

Lemma floored_norm_Rmax (r1 r2 : vec) :
  floored_norm r1 r2 = Rmax (norm (sub r2 r1)) 1e-20.
Proof.
  unfold floored_norm, Rmax.
  destruct (Rlt_dec _ _), (Rle_dec _ _); try reflexivity; lra.
Qed.

Lemma floored_norm_pos (r1 r2 : vec) : 0 < floored_norm r1 r2.
Proof.
  unfold floored_norm. destruct (Rlt_dec _ _); lra.
Qed.

(** The body of the loop, once its three calls of [rk4_step] have
    returned. *)
Lemma loop_body_unfold (tol alpha A B : R) (s : loop_state)
    (ra va r1 v1 r2 v2 : vec) :
  rk4_step (st_r s) (st_v s) (st_dt s) alpha A B = Ok (ra, va) ->
  rk4_step ra va (st_dt s) alpha A B = Ok (r1, v1) ->
  rk4_step (st_r s) (st_v s) (2 * st_dt s) alpha A B = Ok (r2, v2) ->
  loop_body tol alpha A B s =
    let rho := rho_of (st_dt s) tol r1 r2 in
    let s1 :=
      if Rge_dec rho 1
      then LoopState r1 v1 (st_dt s) (st_t s + 2 * st_dt s) (st_i s + 1)
      else s in
    let s2 := LoopState (st_r s1) (st_v s1)
                (py_min (st_dt s * pow_quarter rho) (2 * st_dt s))
                (st_t s1) (st_i s1) in
    Ok (s2, if Rlt_dec (norm (st_r s2)) 1e-7 then true else false).
Proof.
  intros Ha H1 H2. unfold loop_body. rewrite Ha. simpl.
  rewrite H1. simpl. rewrite H2. reflexivity.
Qed.

(** C1: one iteration of the loop.  With [rho = 30 * dt * tol / norm],
    [norm] being [|r2 - r1|] floored at [1e-20], the iteration accepts
    exactly when [rho >= 1]: then [t] advances by [2*dt], the state becomes
    [(r1, v1)] and the counter of accepted steps grows by one; otherwise
    state, time and counter stay.  In both cases the new [dt] is
    [min(dt * rho^(1/4), 2*dt)], at most twice the old one. *)
Theorem loop_body_accept_reject (tol alpha A B : R) (s : loop_state)
    (ra va r1 v1 r2 v2 : vec) :
  rk4_step (st_r s) (st_v s) (st_dt s) alpha A B = Ok (ra, va) ->
  rk4_step ra va (st_dt s) alpha A B = Ok (r1, v1) ->
  rk4_step (st_r s) (st_v s) (2 * st_dt s) alpha A B = Ok (r2, v2) ->
  let rho := 30 * st_dt s * tol / Rmax (norm (sub r2 r1)) 1e-20 in
  exists s' crossed,
    loop_body tol alpha A B s = Ok (s', crossed) /\
    (rho >= 1 ->
       st_t s' = st_t s + 2 * st_dt s /\ st_r s' = r1 /\ st_v s' = v1 /\
       st_i s' = (st_i s + 1)%Z) /\
    (rho < 1 ->
       st_t s' = st_t s /\ st_r s' = st_r s /\ st_v s' = st_v s /\
       st_i s' = st_i s) /\
    st_dt s' = Rmin (st_dt s * pow_quarter rho) (2 * st_dt s) /\
    st_dt s' <= 2 * st_dt s /\
    (0 <= rho -> pow_quarter rho ^ 4 = rho).
Proof.
  intros Ha H1 H2 rho.
  rewrite (loop_body_unfold _ _ _ _ _ _ _ _ _ _ _ Ha H1 H2).
  assert (Hrho : rho_of (st_dt s) tol r1 r2 = rho).
  { unfold rho_of, rho. rewrite floored_norm_Rmax. reflexivity. }
  rewrite Hrho. cbv zeta.
  eexists _, _. split; [reflexivity|].
  cbn [st_t st_r st_v st_i st_dt].
  rewrite py_min_Rmin.
  repeat split.
  - destruct (Rge_dec rho 1); [reflexivity | contradiction].
  - destruct (Rge_dec rho 1); [reflexivity | contradiction].
  - destruct (Rge_dec rho 1); [reflexivity | contradiction].
  - destruct (Rge_dec rho 1); [reflexivity | contradiction].
  - destruct (Rge_dec rho 1); [lra | reflexivity].
  - destruct (Rge_dec rho 1); [lra | reflexivity].
  - destruct (Rge_dec rho 1); [lra | reflexivity].
  - destruct (Rge_dec rho 1); [lra | reflexivity].
  - apply Rmin_r.
  - apply pow_quarter_fourth_root.
Qed.

Lemma length_rk4_free_fall (r v : vec) (dt : R) :
  length r = length v ->
  length (fst (rk4_free_fall r v dt)) = length r /\
  length (snd (rk4_free_fall r v dt)) = length r.
Proof.
  intros Hlen. unfold rk4_free_fall. cbn [fst snd]. split; solve_length.
Qed.

Lemma loop_body_accept_reject_witness :
  exists s' crossed,
    loop_body 1e-7 0 1 1 (init_state [0; 1; 0] [0; 0; 0] 0.01)
      = Ok (s', crossed) /\
    st_dt s' <= 2 * 0.01.
Proof.
  pose (s := init_state [0; 1; 0] [0; 0; 0] 0.01).
  pose (a := rk4_free_fall (st_r s) (st_v s) (st_dt s)).
  pose (b := rk4_free_fall (fst a) (snd a) (st_dt s)).
  pose (c := rk4_free_fall (st_r s) (st_v s) (2 * st_dt s)).
  destruct (length_rk4_free_fall (st_r s) (st_v s) (st_dt s) eq_refl)
    as [Hla Hlb].
  destruct (loop_body_accept_reject 1e-7 0 1 1 s
              (fst a) (snd a) (fst b) (snd b) (fst c) (snd c))
    as (s' & crossed & Hbody & _ & _ & _ & Hdt & _).
  - rewrite <- surjective_pairing. apply rk4_step_without_drag; [lra | reflexivity].
  - rewrite <- surjective_pairing. apply rk4_step_without_drag; [lra |].
    unfold a. rewrite Hla, Hlb. reflexivity.
  - rewrite <- surjective_pairing. apply rk4_step_without_drag; [lra | reflexivity].
  - exists s', crossed. split; [exact Hbody | exact Hdt].
Defined.

Lemma loop_body_inv (tol alpha A B : R) (s s' : loop_state) (crossed : bool) :
  loop_body tol alpha A B s = Ok (s', crossed) ->
  exists ra va r1 v1 r2 v2,
    rk4_step (st_r s) (st_v s) (st_dt s) alpha A B = Ok (ra, va) /\
    rk4_step ra va (st_dt s) alpha A B = Ok (r1, v1) /\
    rk4_step (st_r s) (st_v s) (2 * st_dt s) alpha A B = Ok (r2, v2).
Proof.
  unfold loop_body. intros H.
  apply bind_Ok_inv in H. destruct H as ([ra va] & Ha & H).
  apply bind_Ok_inv in H. destruct H as ([r1 v1] & H1 & H).
  apply bind_Ok_inv in H. destruct H as ([r2 v2] & H2 & H).
  eauto 10.
Qed.

Lemma adaptive_loop_crossed (fuel : nat) (budget : Z) (tol alpha A B : R)
    (n : nat) (s s' : loop_state) :
  (st_i s < budget)%Z ->
  loop_body tol alpha A B s = Ok (s', true) ->
  adaptive_loop (S fuel) budget tol alpha A B n s = Ok (Run Crossed s' (S n)).
Proof.
  intros Hi Hbody. simpl.
  apply Z.ltb_lt in Hi. rewrite Hi, Hbody. reflexivity.
Qed.

Lemma adaptive_loop_continue (fuel : nat) (budget : Z) (tol alpha A B : R)
    (n : nat) (s s' : loop_state) :
  (st_i s < budget)%Z ->
  loop_body tol alpha A B s = Ok (s', false) ->
  adaptive_loop (S fuel) budget tol alpha A B n s
    = adaptive_loop fuel budget tol alpha A B (S n) s'.
Proof.
  intros Hi Hbody. simpl.
  apply Z.ltb_lt in Hi. rewrite Hi, Hbody. reflexivity.
Qed.

Lemma adaptive_loop_exhausted (fuel : nat) (budget : Z) (tol alpha A B : R)
    (n : nat) (s : loop_state) :
  (budget <= st_i s)%Z ->
  adaptive_loop (S fuel) budget tol alpha A B n s = Ok (Run Exhausted s n).
Proof.
  intros Hi. simpl.
  apply Z.ltb_ge in Hi. rewrite Hi. reflexivity.
Qed.

Lemma zero_budget_run (fuel : nat) (r0 v0 : vec)
    (dt tf tol alpha A B : R) (n : Z) :
  num_steps tf dt = Ok n -> (n < 2)%Z ->
  run_to_schwarzschild (S fuel) r0 v0 dt tf tol alpha A B
    = Ok (Run Exhausted (init_state r0 v0 dt) 0).
Proof.
  intros Hn Hlt. unfold run_to_schwarzschild. rewrite Hn. cbn [bind].
  apply adaptive_loop_exhausted. cbn [init_state st_i].
  assert (n / 2 < 1)%Z by (apply Z.div_lt_upper_bound; lia). lia.
Qed.

Lemma zero_budget_time (fuel : nat) (r0 v0 : vec)
    (dt tf tol alpha A B : R) (n : Z) :
  num_steps tf dt = Ok n -> (n < 2)%Z ->
  time_to_schwarzschild (S fuel) r0 v0 dt tf tol alpha A B = Ok tf.
Proof.
  intros Hn Hlt. unfold time_to_schwarzschild.
  rewrite (zero_budget_run _ _ _ _ _ _ _ _ _ _ Hn Hlt). reflexivity.
Qed.

Lemma num_steps_3_2 : num_steps 3 2 = Ok 1%Z.
Proof.
  rewrite num_steps_defined by lra. f_equal.
  apply int_trunc_bounds; simpl; lra.
Qed.

(** C10: when [int(tf / dt) < 2] the budget [num_steps//2] is not
    positive, the loop body is never entered (no pass, the state is the
    initial one) and the function returns [tf], whatever [r0] is. *)
Theorem zero_budget_returns_tf (fuel : nat) (r0 v0 : vec)
    (dt tf tol alpha A B : R) (n : Z) :
  num_steps tf dt = Ok n -> (n < 2)%Z ->
  run_to_schwarzschild (S fuel) r0 v0 dt tf tol alpha A B
    = Ok (Run Exhausted (init_state r0 v0 dt) 0) /\
  time_to_schwarzschild (S fuel) r0 v0 dt tf tol alpha A B = Ok tf.
Proof.
  intros Hn Hlt. split.
  - apply (zero_budget_run _ _ _ _ _ _ _ _ _ _ Hn Hlt).
  - apply (zero_budget_time _ _ _ _ _ _ _ _ _ _ Hn Hlt).
Qed.

Lemma zero_budget_returns_tf_witness :
  num_steps 3 2 = Ok 1%Z /\
  time_to_schwarzschild 1 [0] [0] 2 3 1e-7 0 1 1 = Ok 3.
Proof.
  split; [exact num_steps_3_2|].
  apply (zero_budget_returns_tf 0 [0] [0] 2 3 1e-7 0 1 1 1 num_steps_3_2).
  lia.
Defined.

(** *** Runs on a line through the origin *)

Lemma acceleration_singleton_origin (x : R) :
  x = 0 -> acceleration [x] = [0].
Proof.
  intros ->. rewrite acceleration_near; [reflexivity|].
  rewrite norm_singleton, Rabs_R0. lra.
Qed.

Lemma rk4_free_fall_rest_origin (dt : R) :
  rk4_free_fall [0] [0] dt = ([0], [0]).
Proof.
  unfold rk4_free_fall.
  repeat (rewrite acceleration_singleton_origin by lra;
          cbn [add sub scale zip_with map]).
  f_equal; f_equal; lra.
Qed.

Lemma rk4_step_rest_origin (dt : R) :
  rk4_step [0] [0] dt 0 1 1 = Ok ([0], [0]).
Proof.
  rewrite rk4_step_without_drag by (lra || reflexivity).
  rewrite rk4_free_fall_rest_origin. reflexivity.
Qed.

Lemma loop_body_rest_origin_tol0 :
  loop_body 0 0 1 1 (init_state [0] [0] 1)
  = Ok (LoopState [0] [0] (py_min (1 * pow_quarter 0) (2 * 1)) 0 0, true).
Proof.
  rewrite (loop_body_unfold 0 0 1 1 _ [0] [0] [0] [0] [0] [0])
    by apply rk4_step_rest_origin.
  cbn [init_state st_r st_v st_dt st_t st_i].
  assert (Hrho : rho_of 1 0 [0] [0] = 0).
  { unfold rho_of. pose proof (floored_norm_pos [0] [0]). field. lra. }
  rewrite Hrho. cbv zeta.
  destruct (Rge_dec 0 1) as [Hge|_]; [lra|].
  unfold init_state. cbn [st_r st_v st_dt st_t st_i].
  destruct (Rlt_dec (norm [0]) 1e-7) as [_|Hn]; [reflexivity|].
  exfalso. apply Hn. rewrite norm_singleton, Rabs_R0. lra.
Qed.

(** C3, refuted as stated: from [r0 = [0]], [v0 = [0]], [dt = 1],
    [tf = 2] and [tol = 0] the first iteration is rejected ([rho = 0]),
    yet the threshold test is made after it and the function returns
    [t = 0] with no accepted step. *)
Lemma threshold_checked_after_rejected_iteration :
  rho_of 1 0 [0] [0] < 1 /\
  (exists s',
     run_to_schwarzschild 1 [0] [0] 1 2 0 0 1 1 = Ok (Run Crossed s' 1) /\
     st_i s' = 0%Z) /\
  time_to_schwarzschild 1 [0] [0] 1 2 0 0 1 1 = Ok 0.
Proof.
  assert (Hn : num_steps 2 1 = Ok 2%Z).
  { rewrite num_steps_defined by lra. f_equal.
    apply int_trunc_bounds; simpl; lra. }
  assert (Hrun : run_to_schwarzschild 1 [0] [0] 1 2 0 0 1 1
                 = Ok (Run Crossed
                         (LoopState [0] [0]
                            (py_min (1 * pow_quarter 0) (2 * 1)) 0 0) 1)).
  { unfold run_to_schwarzschild. rewrite Hn. cbn [bind].
    apply adaptive_loop_crossed; [reflexivity|].
    apply loop_body_rest_origin_tol0. }
  split; [| split].
  - unfold rho_of. pose proof (floored_norm_pos [0] [0]).
    replace (30 * 1 * 0 / floored_norm [0] [0]) with 0 by (field; lra). lra.
  - eexists. split; [exact Hrun | reflexivity].
  - unfold time_to_schwarzschild. rewrite Hrun. reflexivity.
Qed.

(** C3, amended: the threshold test closes every iteration, accepted or
    rejected, on the state the iteration leaves; when it holds the loop
    is left at once and the function returns the accumulated time.  A
    rejected iteration leaves [r] as it was, so after it the test holds
    exactly when it held of the state before. *)
Theorem threshold_checked_every_iteration (tol alpha A B : R)
    (s s' : loop_state) (crossed : bool) :
  loop_body tol alpha A B s = Ok (s', crossed) ->
  (crossed = true <-> norm (st_r s') < 1e-7) /\
  (st_i s' = st_i s -> st_r s' = st_r s /\ st_t s' = st_t s) /\
  (crossed = true ->
   forall fuel budget n, (st_i s < budget)%Z ->
     adaptive_loop (S fuel) budget tol alpha A B n s
       = Ok (Run Crossed s' (S n))).
Proof.
  intros Hbody.
  destruct (loop_body_inv _ _ _ _ _ _ _ Hbody)
    as (ra & va & r1 & v1 & r2 & v2 & Ha & H1 & H2).
  pose proof Hbody as Hb.
  rewrite (loop_body_unfold _ _ _ _ _ _ _ _ _ _ _ Ha H1 H2) in Hb.
  cbv zeta in Hb. injection Hb as Hs Hc.
  split; [| split].
  - rewrite <- Hc, <- Hs. cbn [st_r].
    destruct (Rlt_dec _ _); split; intros; try assumption;
      try reflexivity; try discriminate; contradiction.
  - rewrite <- Hs. cbn [st_r st_t st_i].
    destruct (Rge_dec _ _); cbn [st_r st_t st_i]; [lia | auto].
  - intros -> fuel budget n Hi. apply adaptive_loop_crossed; assumption.
Qed.

Lemma threshold_checked_every_iteration_witness :
  adaptive_loop 1 1 0 0 1 1 0 (init_state [0] [0] 1)
  = Ok (Run Crossed
          (LoopState [0] [0] (py_min (1 * pow_quarter 0) (2 * 1)) 0 0) 1).
Proof.
  apply (proj2 (proj2 (threshold_checked_every_iteration 0 0 1 1 _ _ _
                         loop_body_rest_origin_tol0)));
    [reflexivity | cbn; lia].
Defined.

(** *** The budget of accepted steps and the accumulated time *)

Lemma loop_body_counter (tol alpha A B : R) (s s' : loop_state)
    (crossed : bool) :
  loop_body tol alpha A B s = Ok (s', crossed) ->
  st_i s' = st_i s \/ st_i s' = (st_i s + 1)%Z.
Proof.
  intros Hbody.
  destruct (loop_body_inv _ _ _ _ _ _ _ Hbody)
    as (ra & va & r1 & v1 & r2 & v2 & Ha & H1 & H2).
  rewrite (loop_body_unfold _ _ _ _ _ _ _ _ _ _ _ Ha H1 H2) in Hbody.
  cbv zeta in Hbody. injection Hbody as Hs _. rewrite <- Hs.
  cbn [st_i]. destruct (Rge_dec _ _); cbn [st_i]; auto.
Qed.

Lemma loop_body_invariant (dt0 tol alpha A B : R) (s s' : loop_state)
    (crossed : bool) :
  0 <= dt0 -> 0 <= tol ->
  loop_invariant dt0 s ->
  loop_body tol alpha A B s = Ok (s', crossed) ->
  loop_invariant dt0 s'.
Proof.
  intros Hdt0 Htol (Hi & Hdt & Ht) Hbody.
  destruct (loop_body_inv _ _ _ _ _ _ _ Hbody)
    as (ra & va & r1 & v1 & r2 & v2 & Ha & H1 & H2).
  rewrite (loop_body_unfold _ _ _ _ _ _ _ _ _ _ _ Ha H1 H2) in Hbody.
  cbv zeta in Hbody. injection Hbody as Hs _. rewrite <- Hs. clear Hs.
  set (rho := rho_of (st_dt s) tol r1 r2).
  assert (Hrho : 0 <= rho).
  { unfold rho, rho_of. pose proof (floored_norm_pos r1 r2).
    apply Rmult_le_pos; [| left; apply Rinv_0_lt_compat; assumption].
    apply Rmult_le_pos; lra || (apply Rmult_le_pos; lra). }
  pose proof (pow_quarter_nonneg rho) as Hpq.
  assert (Hmin0 : 0 <= py_min (st_dt s * pow_quarter rho) (2 * st_dt s)).
  { rewrite py_min_Rmin. apply Rmin_glb; [apply Rmult_le_pos; lra | lra]. }
  assert (Hpow : 0 < 2 ^ Z.to_nat (st_i s)) by (apply pow_lt; lra).
  unfold loop_invariant. destruct (Rge_dec rho 1) as [Hacc|Hrej];
    cbn [st_i st_dt st_t].
  - replace (Z.to_nat (st_i s + 1)) with (S (Z.to_nat (st_i s))) by lia.
    rewrite <- tech_pow_Rmult.
    assert (Hmin2 : py_min (st_dt s * pow_quarter rho) (2 * st_dt s)
                    <= 2 * st_dt s)
      by (rewrite py_min_Rmin; apply Rmin_r).
    repeat split; try lia; try lra; nra.
  - assert (Hle : pow_quarter rho <= 1) by (apply pow_quarter_le_1; lra).
    assert (Hmin1 : py_min (st_dt s * pow_quarter rho) (2 * st_dt s)
                    <= st_dt s).
    { rewrite py_min_Rmin.
      apply Rle_trans with (st_dt s * pow_quarter rho); [apply Rmin_l | nra]. }
    repeat split; try lia; lra.
Qed.

Lemma loop_body_crossed (tol alpha A B : R) (s s' : loop_state) :
  loop_body tol alpha A B s = Ok (s', true) -> norm (st_r s') < 1e-7.
Proof.
  intros Hbody.
  destruct (loop_body_inv _ _ _ _ _ _ _ Hbody)
    as (ra & va & r1 & v1 & r2 & v2 & Ha & H1 & H2).
  rewrite (loop_body_unfold _ _ _ _ _ _ _ _ _ _ _ Ha H1 H2) in Hbody.
  cbv zeta in Hbody. injection Hbody as Hs Hc. rewrite <- Hs. cbn [st_r].
  destruct (Rlt_dec _ _); [assumption | discriminate].
Qed.

(** The counter of accepted steps never passes the budget, and the loop
    is left by its condition only with the budget used up. *)
Lemma adaptive_loop_counter (fuel : nat) (budget : Z) (tol alpha A B : R)
    (n : nat) (s : loop_state) (out : run) :
  (0 <= st_i s <= Z.max 0 budget)%Z ->
  adaptive_loop fuel budget tol alpha A B n s = Ok out ->
  (0 <= st_i (run_state out) <= Z.max 0 budget)%Z /\
  match run_exit out with
  | Exhausted => st_i (run_state out) = Z.max (st_i s) budget
                 /\ (budget <= st_i (run_state out))%Z
  | Crossed => norm (st_r (run_state out)) < 1e-7
  end.
Proof.
  revert n s. induction fuel as [|fuel IH]; intros n s Hi Hrun.
  - discriminate.
  - simpl in Hrun. destruct (st_i s <? budget)%Z eqn:Hlt.
    + apply Z.ltb_lt in Hlt.
      apply bind_Ok_inv in Hrun. destruct Hrun as ([s' c] & Hbody & Hrun).
      pose proof (loop_body_counter _ _ _ _ _ _ _ Hbody) as Hc.
      destruct c.
      * injection Hrun as <-. cbn [run_state run_exit].
        split; [lia | eapply loop_body_crossed; eassumption].
      * apply IH in Hrun; [| lia].
        destruct Hrun as [Hb Hexit]. split; [exact Hb|].
        destruct (run_exit out); [exact Hexit | lia].
    + apply Z.ltb_ge in Hlt. injection Hrun as <-.
      cbn [run_state run_exit]. lia.
Qed.

Lemma adaptive_loop_invariant (fuel : nat) (budget : Z)
    (dt0 tol alpha A B : R) (n : nat) (s : loop_state) (out : run) :
  0 <= dt0 -> 0 <= tol ->
  loop_invariant dt0 s ->
  adaptive_loop fuel budget tol alpha A B n s = Ok out ->
  loop_invariant dt0 (run_state out).
Proof.
  intros Hdt0 Htol. revert n s.
  induction fuel as [|fuel IH]; intros n s Hinv Hrun.
  - discriminate.
  - simpl in Hrun. destruct (st_i s <? budget)%Z.
    + apply bind_Ok_inv in Hrun. destruct Hrun as ([s' c] & Hbody & Hrun).
      pose proof (loop_body_invariant _ _ _ _ _ _ _ _ Hdt0 Htol Hinv Hbody).
      destruct c.
      * injection Hrun as <-. assumption.
      * eapply IH; eassumption.
    + injection Hrun as <-. assumption.
Qed.

Lemma init_state_invariant (r0 v0 : vec) (dt : R) :
  0 <= dt -> loop_invariant dt (init_state r0 v0 dt).
Proof.
  intros Hdt. unfold loop_invariant, init_state. cbn [st_i st_dt st_t].
  simpl. repeat split; try lia; lra.
Qed.

(** The budget counts accepted steps, not simulated time.
    A run that returns has accepted at most [max(0, int(tf/dt)//2)]
    steps; if the loop is left by its condition the budget is used up and
    the function returns exactly [tf]; if it is left by the threshold
    test the function returns the accumulated time [t], which is not
    bounded by [tf]: for [0 < dt] and [0 <= tol] it is bounded by
    [2 * dt * (2^i - 1)] after [i] accepted steps, since [dt] may double
    at every iteration. *)
Theorem accepted_steps_budget (fuel : nat) (r0 v0 : vec)
    (dt tf tol alpha A B : R) (n : Z) (out : run) :
  num_steps tf dt = Ok n ->
  run_to_schwarzschild fuel r0 v0 dt tf tol alpha A B = Ok out ->
  let budget := Z.max 0 (n / 2) in
  let accepted := st_i (run_state out) in
  (0 <= accepted <= budget)%Z /\
  match run_exit out with
  | Exhausted =>
      accepted = budget /\
      time_to_schwarzschild fuel r0 v0 dt tf tol alpha A B = Ok tf
  | Crossed =>
      norm (st_r (run_state out)) < 1e-7 /\
      time_to_schwarzschild fuel r0 v0 dt tf tol alpha A B
        = Ok (st_t (run_state out))
  end /\
  (0 < dt -> 0 <= tol ->
   0 <= st_t (run_state out) <= 2 * dt * (2 ^ Z.to_nat accepted - 1) /\
   st_t (run_state out) <= 2 * dt * (2 ^ Z.to_nat budget - 1)).
Proof.
  intros Hn Hrun budget accepted.
  pose proof Hrun as Hloop. unfold run_to_schwarzschild in Hloop.
  rewrite Hn in Hloop. cbn [bind] in Hloop.
  assert (Hinit : (0 <= st_i (init_state r0 v0 dt) <= Z.max 0 (n / 2))%Z)
    by (cbn [init_state st_i]; lia).
  destruct (adaptive_loop_counter _ _ _ _ _ _ _ _ _ Hinit Hloop)
    as [Hcount Hexit].
  fold budget accepted in Hcount.
  split; [exact Hcount | split].
  - unfold time_to_schwarzschild. rewrite Hrun. cbn [bind].
    destruct (run_exit out).
    + split; [exact Hexit | reflexivity].
    + split; [| reflexivity].
      destruct Hexit as [Hmax Hge]. cbn [init_state st_i] in Hmax.
      unfold accepted, budget. lia.
  - intros Hdt Htol.
    assert (Hinv : loop_invariant dt (run_state out)).
    { eapply adaptive_loop_invariant; [lra | exact Htol | | exact Hloop].
      apply init_state_invariant. lra. }
    destruct Hinv as (_ & _ & Ht). fold accepted in Ht.
    split; [exact Ht|].
    assert (Hmono : 2 ^ Z.to_nat accepted <= 2 ^ Z.to_nat budget).
    { apply Rle_pow; [lra | lia]. }
    nra.
Qed.

(** *** Fast flight along a line: gravity as a perturbation *)

Lemma acceleration_singleton (x : R) :
  acceleration [x] = [acceleration_line x].
Proof.
  unfold acceleration, acceleration_line. rewrite norm_singleton.
  destruct (Rlt_dec (Rabs x) 1e-10); reflexivity.
Qed.

Lemma rk4_free_fall_singleton (r v dt : R) :
  rk4_free_fall [r] [v] dt
  = ([fst (rk4_line r v dt)], [snd (rk4_line r v dt)]).
Proof.
  unfold rk4_free_fall, rk4_line.
  repeat (rewrite acceleration_singleton;
          cbn [add scale zip_with map]).
  cbn [fst snd]. reflexivity.
Qed.

Lemma rk4_step_singleton (r v dt A : R) :
  rk4_step [r] [v] dt 0 A 1
  = Ok ([fst (rk4_line r v dt)], [snd (rk4_line r v dt)]).
Proof.
  rewrite rk4_step_without_drag by (lra || reflexivity).
  rewrite rk4_free_fall_singleton. reflexivity.
Qed.

(** Beyond [5e9] from the origin the pull is at most [1e-20]. *)
Lemma acceleration_line_far (x : R) :
  5e9 <= x -> - 1e-20 <= acceleration_line x <= 1e-20.
Proof.
  intros Hx. unfold acceleration_line.
  rewrite Rabs_pos_eq by lra.
  destruct (Rlt_dec x 1e-10) as [Hlt|_]; [lra|].
  assert (Hxx : 25e18 <= x * x) by nra.
  assert (Hval : -1 / x ^ 3 * x / 4 = - / (4 * (x * x))) by (field; lra).
  rewrite Hval.
  assert (Hinv : / (4 * (x * x)) <= / (4 * 25e18)).
  { apply Rinv_le_contravar; lra. }
  assert (Hpos : 0 < / (4 * (x * x))) by (apply Rinv_0_lt_compat; lra).
  assert (Hc : / (4 * 25e18) = 1e-20) by lra.
  lra.
Qed.

(** One step in the far field: the position moves by [dt * v] up to
    [dt^2 / 2 * 1e-20]. *)
Lemma rk4_line_position (r v dt : R) :
  0 <= dt ->
  5e9 <= r ->
  5e9 <= r + 0.5 * dt * v - 0.25 * dt * dt * 1e-20 ->
  r + dt * v - 0.5 * dt * dt * 1e-20
    <= fst (rk4_line r v dt)
    <= r + dt * v + 0.5 * dt * dt * 1e-20.
Proof.
  intros Hdt Hr Hp. unfold rk4_line. cbn [fst].
  pose proof (acceleration_line_far r Hr) as H1.
  set (k1 := acceleration_line r) in *.
  assert (H2 : - 1e-20 <= acceleration_line (r + 0.5 * dt * v) <= 1e-20).
  { apply acceleration_line_far. nra. }
  set (k2 := acceleration_line (r + 0.5 * dt * v)) in *.
  assert (H3 : - 1e-20
               <= acceleration_line (r + 0.5 * dt * (v + 0.5 * dt * k1))
               <= 1e-20).
  { apply acceleration_line_far.
    assert (- (dt * dt * 1e-20) <= dt * dt * k1) by nra. lra. }
  set (k3 := acceleration_line (r + 0.5 * dt * (v + 0.5 * dt * k1))) in *.
  assert (Hd : 0 <= dt * dt) by nra.
  assert (Hk1 : - (dt * dt * 1e-20) <= dt * dt * k1 <= dt * dt * 1e-20)
    by nra.
  assert (Hk2 : - (dt * dt * 1e-20) <= dt * dt * k2 <= dt * dt * 1e-20)
    by nra.
  assert (Hk3 : - (dt * dt * 1e-20) <= dt * dt * k3 <= dt * dt * 1e-20)
    by nra.
  replace (r + dt / 6
             * (v + 2 * (v + 0.5 * dt * k1) + 2 * (v + 0.5 * dt * k2)
                + (v + dt * k3)))
    with (r + dt * v + (dt * dt * k1 + dt * dt * k2 + dt * dt * k3) / 6)
    by lra.
  lra.
Qed.

(** The velocity changes by at most [dt * 1e-20] when the fourth stage
    is in the far field too. *)
Lemma rk4_line_velocity (r v dt : R) :
  0 <= dt ->
  5e9 <= r ->
  5e9 <= r + 0.5 * dt * v - 0.25 * dt * dt * 1e-20 ->
  5e9 <= r + dt * v - 0.5 * dt * dt * 1e-20 ->
  v - dt * 1e-20 <= snd (rk4_line r v dt) <= v + dt * 1e-20.
Proof.
  intros Hdt Hr Hp Hq. unfold rk4_line. cbn [snd].
  pose proof (acceleration_line_far r Hr) as H1.
  set (k1 := acceleration_line r) in *.
  assert (H2 : - 1e-20 <= acceleration_line (r + 0.5 * dt * v) <= 1e-20).
  { apply acceleration_line_far. nra. }
  set (k2 := acceleration_line (r + 0.5 * dt * v)) in *.
  assert (H3 : - 1e-20
               <= acceleration_line (r + 0.5 * dt * (v + 0.5 * dt * k1))
               <= 1e-20).
  { apply acceleration_line_far.
    assert (- (dt * dt * 1e-20) <= dt * dt * k1) by nra. lra. }
  set (k3 := acceleration_line (r + 0.5 * dt * (v + 0.5 * dt * k1))) in *.
  assert (H4 : - 1e-20
               <= acceleration_line (r + dt * (v + 0.5 * dt * k2))
               <= 1e-20).
  { apply acceleration_line_far.
    assert (- (dt * dt * 1e-20) <= dt * dt * k2) by nra. lra. }
  set (k4 := acceleration_line (r + dt * (v + 0.5 * dt * k2))) in *.
  assert (Hk1 : - (dt * 1e-20) <= dt * k1 <= dt * 1e-20) by nra.
  assert (Hk2 : - (dt * 1e-20) <= dt * k2 <= dt * 1e-20) by nra.
  assert (Hk3 : - (dt * 1e-20) <= dt * k3 <= dt * 1e-20) by nra.
  assert (Hk4 : - (dt * 1e-20) <= dt * k4 <= dt * 1e-20) by nra.
  replace (v + dt / 6 * (k1 + 2 * k2 + 2 * k3 + k4))
    with (v + (dt * k1 + 2 * (dt * k2) + 2 * (dt * k3) + dt * k4) / 6)
    by lra.
  lra.
Qed.

Lemma rho_of_singleton_lower (dt tol rb rc e K : R) :
  1e-20 <= e ->
  - e <= rc - rb <= e ->
  0 <= K ->
  K * e <= 30 * dt * tol ->
  K <= rho_of dt tol [rb] [rc].
Proof.
  intros He Hd HK Hnum. unfold rho_of.
  pose proof (floored_norm_pos [rb] [rc]) as Hpos.
  assert (Hfn : floored_norm [rb] [rc] <= e).
  { unfold floored_norm. cbn [sub zip_with]. rewrite norm_singleton.
    destruct (Rlt_dec _ _); [lra|]. apply Rabs_le. lra. }
  set (fn := floored_norm [rb] [rc]) in *.
  assert (Hle : K * fn <= 30 * dt * tol) by nra.
  unfold Rdiv. apply Rmult_le_reg_r with fn; [exact Hpos|].
  rewrite Rmult_assoc, Rinv_l by lra. lra.
Qed.

Lemma py_min_doubles (dt rho : R) :
  0 <= dt -> 16 <= rho -> py_min (dt * pow_quarter rho) (2 * dt) = 2 * dt.
Proof.
  intros Hdt Hrho. pose proof (pow_quarter_ge_2 rho Hrho) as Hpq.
  rewrite py_min_Rmin. apply Rmin_right. nra.
Qed.

(** An accepted iteration on a line whose step size doubles. *)
Lemma loop_body_line_accept (tol A r v dt t : R) (i : Z) :
  let a := rk4_line r v dt in
  let b := rk4_line (fst a) (snd a) dt in
  let c := rk4_line r v (2 * dt) in
  0 <= dt ->
  16 <= rho_of dt tol [fst b] [fst c] ->
  loop_body tol 0 A 1 (LoopState [r] [v] dt t i)
  = Ok (LoopState [fst b] [snd b] (2 * dt) (t + 2 * dt) (i + 1),
        if Rlt_dec (Rabs (fst b)) 1e-7 then true else false).
Proof.
  intros a b c Hdt Hrho.
  rewrite (loop_body_unfold tol 0 A 1 _
             [fst a] [snd a] [fst b] [snd b] [fst c] [snd c])
    by (cbn [st_r st_v st_dt]; apply rk4_step_singleton).
  cbn [st_r st_v st_dt st_t st_i]. cbv zeta.
  destruct (Rge_dec (rho_of dt tol [fst b] [fst c]) 1) as [_|Hn]; [| lra].
  cbn [st_r st_v st_dt st_t st_i].
  rewrite py_min_doubles by assumption.
  rewrite norm_singleton. reflexivity.
Qed.

(** The first iteration from [6e10] with velocity [-1e10] and [dt = 1]:
    accepted, the step doubles, the particle is near [4e10]. *)
Lemma fast_flight_first_iteration :
  exists r1 v1,
    loop_body 1e-7 0 1 1 (init_state [6e10] [-1e10] 1)
    = Ok (LoopState [r1] [v1] (2 * 1) (0 + 2 * 1) (0 + 1), false) /\
    4e10 - 2e-20 <= r1 <= 4e10 + 2e-20 /\
    -1e10 - 2e-20 <= v1 <= -1e10 + 2e-20.
Proof.
  pose (a := rk4_line 6e10 (-1e10) 1).
  pose (b := rk4_line (fst a) (snd a) 1).
  pose (c := rk4_line 6e10 (-1e10) (2 * 1)).
  assert (Har : 5e10 - 0.5e-20 <= fst a <= 5e10 + 0.5e-20).
  { pose proof (rk4_line_position 6e10 (-1e10) 1) as H. fold a in H. lra. }
  assert (Hav : -1e10 - 1e-20 <= snd a <= -1e10 + 1e-20).
  { pose proof (rk4_line_velocity 6e10 (-1e10) 1) as H. fold a in H. lra. }
  assert (Hbr : 4e10 - 2e-20 <= fst b <= 4e10 + 2e-20).
  { pose proof (rk4_line_position (fst a) (snd a) 1) as H. fold b in H. lra. }
  assert (Hbv : -1e10 - 2e-20 <= snd b <= -1e10 + 2e-20).
  { pose proof (rk4_line_velocity (fst a) (snd a) 1) as H. fold b in H. lra. }
  assert (Hcr : 4e10 - 2e-20 <= fst c <= 4e10 + 2e-20).
  { pose proof (rk4_line_position 6e10 (-1e10) (2 * 1)) as H.
    fold c in H. lra. }
  exists (fst b), (snd b). split; [| split; assumption].
  unfold init_state.
  rewrite loop_body_line_accept.
  - fold a b. destruct (Rlt_dec (Rabs (fst b)) 1e-7) as [Hlt|_];
      [| reflexivity].
    rewrite Rabs_pos_eq in Hlt by lra. lra.
  - lra.
  - fold a b c. apply rho_of_singleton_lower with (e := 4e-20); lra.
Qed.

(** The second iteration, with [dt = 2]: accepted again, and the particle
    lands within [1e-7] of the origin. *)
Lemma fast_flight_second_iteration (r1 v1 : R) :
  4e10 - 2e-20 <= r1 <= 4e10 + 2e-20 ->
  -1e10 - 2e-20 <= v1 <= -1e10 + 2e-20 ->
  exists s',
    loop_body 1e-7 0 1 1 (LoopState [r1] [v1] (2 * 1) (0 + 2 * 1) (0 + 1))
    = Ok (s', true) /\
    st_t s' = 6.
Proof.
  intros Hr1 Hv1.
  pose (a := rk4_line r1 v1 (2 * 1)).
  pose (b := rk4_line (fst a) (snd a) (2 * 1)).
  pose (c := rk4_line r1 v1 (2 * (2 * 1))).
  assert (Har : 2e10 - 8e-20 <= fst a <= 2e10 + 8e-20).
  { pose proof (rk4_line_position r1 v1 (2 * 1)) as H. fold a in H. lra. }
  assert (Hav : -1e10 - 4e-20 <= snd a <= -1e10 + 4e-20).
  { pose proof (rk4_line_velocity r1 v1 (2 * 1)) as H. fold a in H. lra. }
  assert (Hbr : - 18e-20 <= fst b <= 18e-20).
  { pose proof (rk4_line_position (fst a) (snd a) (2 * 1)) as H.
    fold b in H. lra. }
  assert (Hcr : - 18e-20 <= fst c <= 18e-20).
  { pose proof (rk4_line_position r1 v1 (2 * (2 * 1))) as H.
    fold c in H. lra. }
  eexists. split.
  - rewrite loop_body_line_accept.
    + fold a b.
      destruct (Rlt_dec (Rabs (fst b)) 1e-7) as [_|Hn]; [reflexivity|].
      exfalso. apply Hn. apply Rabs_def1; lra.
    + lra.
    + fold a b c. apply rho_of_singleton_lower with (e := 36e-20); lra.
  - cbn [st_t]. lra.
Qed.

Lemma num_steps_4_1 : num_steps 4 1 = Ok 4%Z.
Proof.
  rewrite num_steps_defined by lra. f_equal.
  apply int_trunc_bounds; simpl; lra.
Qed.

Lemma fast_flight_run :
  exists s',
    run_to_schwarzschild 2 [6e10] [-1e10] 1 4 1e-7 0 1 1
    = Ok (Run Crossed s' 2) /\
    st_t s' = 6.
Proof.
  destruct fast_flight_first_iteration as (r1 & v1 & Hfirst & Hr1 & Hv1).
  destruct (fast_flight_second_iteration r1 v1 Hr1 Hv1)
    as (s' & Hsecond & Ht).
  exists s'. split; [| exact Ht].
  unfold run_to_schwarzschild.
  rewrite num_steps_4_1. cbn [bind].
  change (4 / 2)%Z with 2%Z.
  rewrite (adaptive_loop_continue 1 2 _ _ _ _ 0
             (init_state [6e10] [-1e10] 1) _ eq_refl Hfirst).
  apply (adaptive_loop_crossed 0 2 _ _ _ _ 1
           (LoopState [r1] [v1] (2 * 1) (0 + 2 * 1) (0 + 1)) _
           eq_refl Hsecond).
Qed.

(** C2, a defect of the code: the returned time can exceed [tf], which
    line 75 calls the maximum time.  With the default tolerance, from
    [6e10] with velocity [-1e10], [dt = 1] and [tf = 4] the budget
    [int(4 / 1) // 2] is two accepted steps; both iterations are
    accepted, the step doubles after the first, and the threshold is
    crossed at [t = 2 + 4 = 6], which the function returns although
    [tf = 4]. *)
Lemma returned_time_exceeds_tf :
  num_steps 4 1 = Ok 4%Z /\
  time_to_schwarzschild 2 [6e10] [-1e10] 1 4 1e-7 0 1 1 = Ok 6 /\
  4 < 6.
Proof.
  split; [exact num_steps_4_1 | split; [| lra]].
  destruct fast_flight_run as (s' & Hrun & Ht).
  unfold time_to_schwarzschild. rewrite Hrun.
  cbn [bind run_exit run_state]. rewrite Ht. reflexivity.
Qed.

Lemma accepted_steps_budget_witness :
  exists out,
    run_to_schwarzschild 2 [6e10] [-1e10] 1 4 1e-7 0 1 1 = Ok out /\
    (0 <= st_i (run_state out) <= 2)%Z.
Proof.
  destruct fast_flight_run as (s' & Hrun & _).
  exists (Run Crossed s' 2). split; [exact Hrun|].
  exact (proj1 (accepted_steps_budget 2 [6e10] [-1e10] 1 4 1e-7 0 1 1 4
                  (Run Crossed s' 2) num_steps_4_1 Hrun)).
Defined.

(** The loop need not end: with [tol = 0] every iteration is rejected,
    rejected iterations use no budget, and away from the threshold the
    run goes on whatever the fuel. *)
Lemma loop_body_always_rejected (dt : R) :
  exists dt',
    loop_body 0 0 1 1 (LoopState [1] [0] dt 0 0)
    = Ok (LoopState [1] [0] dt' 0 0, false).
Proof.
  pose (a := rk4_line 1 0 dt).
  pose (b := rk4_line (fst a) (snd a) dt).
  pose (c := rk4_line 1 0 (2 * dt)).
  eexists.
  rewrite (loop_body_unfold 0 0 1 1 (LoopState [1] [0] dt 0 0)
             [fst a] [snd a] [fst b] [snd b] [fst c] [snd c])
    by (cbn [st_r st_v st_dt]; apply rk4_step_singleton).
  cbn [st_r st_v st_dt st_t st_i]. cbv zeta.
  assert (Hrho : rho_of dt 0 [fst b] [fst c] = 0)
    by (unfold rho_of, Rdiv; ring).
  rewrite Hrho.
  destruct (Rge_dec 0 1) as [Hge|_]; [lra|].
  cbn [st_r st_v st_dt st_t st_i].
  rewrite norm_singleton, Rabs_R1.
  destruct (Rlt_dec 1 1e-7) as [Hlt|_]; [lra | reflexivity].
Qed.

Lemma rejected_forever (fuel n : nat) (dt : R) :
  adaptive_loop fuel 1 0 0 1 1 n (LoopState [1] [0] dt 0 0)
  = Fail OutOfFuel.
Proof.
  revert n dt. induction fuel as [|fuel IH]; intros n dt; [reflexivity|].
  destruct (loop_body_always_rejected dt) as [dt' Hbody].
  rewrite (adaptive_loop_continue fuel 1 _ _ _ _ n
             (LoopState [1] [0] dt 0 0) _ eq_refl Hbody).
  apply IH.
Qed.

(** ** Sweep orchestrator *)

(** *** The results array *)

Lemma tensor_set_comm (T : tensor) (c1 c2 : cell) (t1 t2 : R) :
  c1 <> c2 ->
  tensor_set (tensor_set T c1 t1) c2 t2
  = tensor_set (tensor_set T c2 t2) c1 t1.
Proof.
  destruct c1 as [[i1 j1] k1], c2 as [[i2 j2] k2]. intros Hne.
  unfold tensor_set. cbv beta iota.
  destruct (decide (i1 = i2)) as [->|Hi].
  - rewrite !list_alter_alter_eq. apply list_alter_ext; [|reflexivity].
    intros plane _. simpl.
    destruct (decide (j1 = j2)) as [->|Hj].
    + rewrite !list_alter_alter_eq. apply list_alter_ext; [|reflexivity].
      intros row _. simpl.
      apply list_insert_insert_ne. congruence.
    + apply list_alter_alter_ne. congruence.
  - apply list_alter_alter_ne. congruence.
Qed.

Lemma write_chunk_app (T : tensor) (w1 w2 : list (cell * R)) :
  write_chunk T (w1 ++ w2) = write_chunk (write_chunk T w1) w2.
Proof. unfold write_chunk. apply fold_left_app. Qed.

(** Writes to distinct cells can be made in any order. *)
Lemma write_chunk_Permutation (w1 w2 : list (cell * R)) :
  w1 ≡ₚ w2 -> NoDup (map fst w1) ->
  forall T, write_chunk T w1 = write_chunk T w2.
Proof.
  induction 1 as [|x l l' Hp IH|x y l|l l' l'' Hp1 IH1 Hp2 IH2];
    intros Hnd T.
  - reflexivity.
  - simpl in Hnd. apply NoDup_cons in Hnd as [_ Hnd].
    unfold write_chunk in *. simpl. apply IH, Hnd.
  - simpl in Hnd. apply NoDup_cons in Hnd as [Hx _].
    unfold write_chunk. simpl. f_equal.
    apply tensor_set_comm. intros Heq. apply Hx. rewrite Heq. left.
  - rewrite IH1 by exact Hnd. apply IH2.
    pose proof (Permutation_map fst Hp1) as Hm.
    rewrite <- Hm. exact Hnd.
Qed.

Lemma length_tensor_set (T : tensor) (c : cell) (t : R) :
  length (tensor_set T c t) = length T.
Proof. destruct c as [[i j] k]. apply length_alter. Qed.

Lemma has_shape_zeros (a b c : nat) : has_shape (zeros a b c) a b c.
Proof.
  unfold has_shape, zeros. split; [apply length_replicate|].
  apply Forall_replicate. split; [apply length_replicate|].
  apply Forall_replicate. apply length_replicate.
Qed.

Lemma Forall_alter_same {A : Type} (P : A -> Prop) (f : A -> A)
    (l : list A) (i : nat) :
  (forall x, P x -> P (f x)) -> Forall P l -> Forall P (alter f i l).
Proof.
  intros Hf Hl. revert i.
  induction Hl as [|x l Hx Hl IH]; intros i.
  - destruct i; constructor.
  - destruct i as [|i]; cbn [alter list_alter].
    + constructor; [apply Hf, Hx | exact Hl].
    + constructor; [exact Hx | apply IH].
Qed.

Lemma has_shape_tensor_set (T : tensor) (cl : cell) (t : R) (a b c : nat) :
  has_shape T a b c -> has_shape (tensor_set T cl t) a b c.
Proof.
  destruct cl as [[i j] k]. intros [Hlen Hall]. split.
  - rewrite length_tensor_set. exact Hlen.
  - unfold tensor_set. apply Forall_alter_same; [| exact Hall].
    intros plane [Hp Hrows]. split; [rewrite length_alter; exact Hp|].
    apply Forall_alter_same; [| exact Hrows].
    intros row Hrow. rewrite length_insert. exact Hrow.
Qed.

Lemma has_shape_write_chunk (w : list (cell * R)) (T : tensor)
    (a b c : nat) :
  has_shape T a b c -> has_shape (write_chunk T w) a b c.
Proof.
  revert T. induction w as [|[cl t] w IH]; intros T HT; [exact HT|].
  unfold write_chunk in *. simpl. apply IH, has_shape_tensor_set, HT.
Qed.

Lemma tensor_get_set_ne (T : tensor) (c c' : cell) (t : R) :
  c <> c' -> tensor_get (tensor_set T c t) c' = tensor_get T c'.
Proof.
  destruct c as [[i j] k], c' as [[i' j'] k']. intros Hne.
  unfold tensor_get, tensor_set.
  destruct (decide (i = i')) as [->|Hi];
    [| rewrite list_lookup_alter_ne by exact Hi; reflexivity].
  rewrite list_lookup_alter_eq.
  destruct (T !! i') as [plane|]; [| reflexivity]. cbn [fmap option_fmap option_map].
  destruct (decide (j = j')) as [->|Hj];
    [| rewrite list_lookup_alter_ne by exact Hj; reflexivity].
  rewrite list_lookup_alter_eq.
  destruct (plane !! j') as [row|]; [| reflexivity]. cbn [fmap option_fmap option_map].
  apply list_lookup_insert_ne. congruence.
Qed.

Lemma tensor_get_set_eq (T : tensor) (c : cell) (t : R) (a b n : nat) :
  has_shape T a b n ->
  (c.1.1 < a)%nat -> (c.1.2 < b)%nat -> (c.2 < n)%nat ->
  tensor_get (tensor_set T c t) c = Some t.
Proof.
  destruct c as [[i j] k]. cbn [fst snd]. intros [Hlen Hall] Hi Hj Hk.
  unfold tensor_get, tensor_set. rewrite list_lookup_alter_eq.
  destruct (lookup_lt_is_Some_2 T i) as [plane Hplane]; [lia|].
  rewrite Hplane. cbn [fmap option_fmap option_map].
  destruct (proj1 (Forall_lookup _ _) Hall i plane Hplane) as [Hb Hrows].
  rewrite list_lookup_alter_eq.
  destruct (lookup_lt_is_Some_2 plane j) as [row Hrow]; [lia|].
  rewrite Hrow. cbn [fmap option_fmap option_map].
  pose proof (proj1 (Forall_lookup _ _) Hrows j row Hrow) as Hn.
  cbv beta in Hn. apply list_lookup_insert_eq. lia.
Qed.

Lemma write_chunk_get_other (w : list (cell * R)) (T : tensor) (c : cell) :
  c ∉ map fst w -> tensor_get (write_chunk T w) c = tensor_get T c.
Proof.
  revert T. induction w as [|[c0 t0] w IH]; intros T Hc; [reflexivity|].
  unfold write_chunk in *. simpl in *.
  apply not_elem_of_cons in Hc as [Hne Hc].
  rewrite IH by exact Hc. apply tensor_get_set_ne. congruence.
Qed.

(** After writes to distinct cells inside the array, each of them holds
    the value written to it. *)
Lemma write_chunk_get (w : list (cell * R)) (T : tensor) (a b n : nat)
    (c : cell) (t : R) :
  has_shape T a b n ->
  NoDup (map fst w) ->
  Forall (fun ct : cell * R =>
            (ct.1.1.1 < a)%nat /\ (ct.1.1.2 < b)%nat /\ (ct.1.2 < n)%nat) w ->
  (c, t) ∈ w ->
  tensor_get (write_chunk T w) c = Some t.
Proof.
  revert T. induction w as [|[c0 t0] w IH]; intros T HT Hnd Hin Hc.
  - apply elem_of_nil in Hc. contradiction.
  - simpl in Hnd. apply NoDup_cons in Hnd as [Hc0 Hnd].
    apply Forall_cons in Hin as [(Ha & Hb & Hn) Hin]. cbn [fst snd] in *.
    apply elem_of_cons in Hc as [Heq|Hc].
    + injection Heq as -> ->.
      change (write_chunk T ((c0, t0) :: w))
        with (write_chunk (tensor_set T c0 t0) w).
      rewrite write_chunk_get_other by exact Hc0.
      eapply tensor_get_set_eq; eassumption.
    + change (write_chunk T ((c0, t0) :: w))
        with (write_chunk (tensor_set T c0 t0) w).
      apply IH; try assumption. apply has_shape_tensor_set, HT.
Qed.

(** *** Workers, the sequential fill and the merge *)

Section SweepFacts.

Variable sim : cell -> M R.

Lemma eval_cells_keys (cs : list cell) (o : list (cell * R)) :
  eval_cells sim cs = Ok o -> map fst o = cs.
Proof.
  revert o. induction cs as [|c cs IH]; intros o H; simpl in H.
  - injection H as <-. reflexivity.
  - apply bind_Ok_inv in H as (t & Ht & H).
    apply bind_Ok_inv in H as (rest & Hrest & H).
    injection H as <-. simpl. f_equal. apply IH, Hrest.
Qed.

Lemma eval_cells_values (cs : list cell) (o : list (cell * R)) :
  eval_cells sim cs = Ok o -> Forall (fun ct => sim (fst ct) = Ok (snd ct)) o.
Proof.
  revert o. induction cs as [|c cs IH]; intros o H; simpl in H.
  - injection H as <-. constructor.
  - apply bind_Ok_inv in H as (t & Ht & H).
    apply bind_Ok_inv in H as (rest & Hrest & H).
    injection H as <-. constructor; [exact Ht | apply IH, Hrest].
Qed.

Lemma eval_cells_app (a b : list cell) :
  eval_cells sim (a ++ b)
  = let* x := eval_cells sim a in
    let* y := eval_cells sim b in
    Ok (x ++ y).
Proof.
  induction a as [|c a IH]; simpl.
  - destruct (eval_cells sim b); reflexivity.
  - destruct (sim c) as [t|e]; simpl; [| reflexivity].
    rewrite IH. destruct (eval_cells sim a) as [x|e]; simpl; [| reflexivity].
    destruct (eval_cells sim b); reflexivity.
Qed.

Lemma eval_cells_total (cs : list cell) :
  (forall c, c ∈ cs -> exists t, sim c = Ok t) ->
  exists o, eval_cells sim cs = Ok o.
Proof.
  induction cs as [|c cs IH]; intros Hall; simpl; [eauto|].
  destruct (Hall c) as [t Ht]; [left|]. rewrite Ht. simpl.
  destruct IH as [o Ho]; [intros c' Hc'; apply Hall; right; exact Hc'|].
  rewrite Ho. simpl. eauto.
Qed.

Lemma process_chunk_worker_outcome (cs log : list cell)
    (out : list (cell * R)) :
  outcome (process_chunk_worker sim cs log out)
  = let* o := eval_cells sim cs in Ok (out ++ o).
Proof.
  revert log out. induction cs as [|c cs IH]; intros log out; simpl.
  - rewrite app_nil_r. reflexivity.
  - destruct (sim c) as [t|e]; simpl; [| reflexivity].
    rewrite IH. destruct (eval_cells sim cs) as [o|e]; simpl;
      [| reflexivity].
    rewrite <- app_assoc. reflexivity.
Qed.

Lemma sequential_fill_outcome (cs log : list cell) (T : tensor) :
  outcome (sequential_fill sim cs log T)
  = let* o := eval_cells sim cs in Ok (write_chunk T o).
Proof.
  revert log T. induction cs as [|c cs IH]; intros log T; simpl.
  - reflexivity.
  - destruct (sim c) as [t|e]; simpl; [| reflexivity].
    rewrite IH. destruct (eval_cells sim cs) as [o|e]; reflexivity.
Qed.

(** The trace of a sequential fill that succeeds: every cell, once, in
    order. *)
Lemma sequential_fill_simulated (cs log : list cell) (T T' : tensor) :
  outcome (sequential_fill sim cs log T) = Ok T' ->
  simulated (sequential_fill sim cs log T) = log ++ cs.
Proof.
  revert log T. induction cs as [|c cs IH]; intros log T H; simpl in *.
  - rewrite app_nil_r. reflexivity.
  - destruct (sim c) as [t|e]; simpl in *; [| discriminate].
    rewrite (IH _ _ H), <- app_assoc. reflexivity.
Qed.

Lemma chunk_results_concat (chunks : list (list cell))
    (outs : list (list (cell * R))) :
  chunk_results sim chunks outs ->
  eval_cells sim (concat chunks) = Ok (concat outs).
Proof.
  induction 1 as [|chunk o chunks outs Ho _ IH]; simpl; [reflexivity|].
  rewrite eval_cells_app, Ho. simpl. rewrite IH. reflexivity.
Qed.

Lemma chunk_results_of_concat (chunks : list (list cell))
    (o : list (cell * R)) :
  eval_cells sim (concat chunks) = Ok o ->
  exists outs, chunk_results sim chunks outs /\ o = concat outs.
Proof.
  revert o. induction chunks as [|chunk chunks IH]; intros o H; simpl in H.
  - injection H as <-. exists []. split; [constructor | reflexivity].
  - rewrite eval_cells_app in H.
    apply bind_Ok_inv in H as (x & Hx & H).
    apply bind_Ok_inv in H as (y & Hy & H). injection H as <-.
    destruct (IH y Hy) as (outs & Houts & ->).
    exists (x :: outs). split; [constructor; assumption | reflexivity].
Qed.

Lemma chunk_results_exist (chunks : list (list cell)) :
  (forall n chunk, chunks !! n = Some chunk ->
                   exists o, eval_cells sim chunk = Ok o) ->
  exists outs, chunk_results sim chunks outs.
Proof.
  induction chunks as [|chunk chunks IH]; intros Hall.
  - exists []. constructor.
  - destruct (Hall 0%nat chunk eq_refl) as [o Ho].
    destruct IH as [outs Houts].
    { intros n ch Hn. apply (Hall (S n)). exact Hn. }
    exists (o :: outs). constructor; assumption.
Qed.

Lemma futures_lookup (chunks : list (list cell))
    (outs : list (list (cell * R))) (n : nat) (o : list (cell * R)) :
  chunk_results sim chunks outs ->
  outs !! n = Some o ->
  exists future,
    map (fun chunk => process_chunk_worker sim chunk [] []) chunks !! n
      = Some future /\
    outcome future = Ok o.
Proof.
  intros Hres Ho.
  destruct (Forall2_lookup_r _ _ _ _ _ Hres Ho) as (chunk & Hchunk & Heval).
  eexists. split.
  - change (map ?f chunks) with (f <$> chunks).
    rewrite list_lookup_fmap, Hchunk. reflexivity.
  - rewrite process_chunk_worker_outcome, Heval. reflexivity.
Qed.

(** When every worker returns, the merge makes the writes of
    [merged_writes], whatever the order of arrival. *)
Lemma process_futures_writes (chunks : list (list cell))
    (outs : list (list (cell * R))) (arrival : list nat) (T : tensor) :
  chunk_results sim chunks outs ->
  process_futures
    (map (fun chunk => process_chunk_worker sim chunk [] []) chunks)
    arrival T
  = Ok (write_chunk T (merged_writes outs arrival)).
Proof.
  intros Hres. revert T.
  induction arrival as [|n arrival IH]; intros T; [reflexivity|].
  simpl. unfold merged_writes. cbn [omap list_omap].
  destruct (outs !! n) as [o|] eqn:Ho.
  - destruct (futures_lookup _ _ _ _ Hres Ho) as (future & -> & Hout).
    rewrite Hout. cbn [bind]. rewrite IH.
    cbn [concat]. rewrite write_chunk_app. reflexivity.
  - assert (Hnone :
      map (fun chunk => process_chunk_worker sim chunk [] []) chunks !! n
      = None).
    { apply lookup_ge_None. rewrite length_map.
      rewrite (Forall2_length _ _ _ Hres).
      apply lookup_ge_None. exact Ho. }
    rewrite Hnone. apply IH.
Qed.

(** A merge that succeeds has seen every arrived worker return. *)
Lemma process_futures_Ok_inv (chunks : list (list cell))
    (arrival : list nat) (T T' : tensor) :
  process_futures
    (map (fun chunk => process_chunk_worker sim chunk [] []) chunks)
    arrival T = Ok T' ->
  forall n chunk, n ∈ arrival -> chunks !! n = Some chunk ->
                  exists o, eval_cells sim chunk = Ok o.
Proof.
  revert T. induction arrival as [|m arrival IH]; intros T H n chunk Hn Hc.
  - apply elem_of_nil in Hn. contradiction.
  - simpl in H.
    destruct (map (fun chunk => process_chunk_worker sim chunk [] []) chunks
                !! m) as [future|] eqn:Hf.
    + apply bind_Ok_inv in H as (o & Ho & H).
      apply elem_of_cons in Hn as [->|Hn]; [| eapply IH; eassumption].
      change (map ?f chunks) with (f <$> chunks) in Hf.
      rewrite list_lookup_fmap, Hc in Hf. injection Hf as <-.
      rewrite process_chunk_worker_outcome in Ho.
      destruct (eval_cells sim chunk) as [o'|e]; [eauto | discriminate].
    + apply elem_of_cons in Hn as [->|Hn]; [| eapply IH; eassumption].
      change (map ?f chunks) with (f <$> chunks) in Hf.
      rewrite list_lookup_fmap, Hc in Hf. discriminate.
Qed.

Lemma omap_lookup_seq {A : Type} (l : list A) (start : nat) :
  omap (fun n => l !! n) (seq start (length l - start)) = drop start l.
Proof.
  remember (length l - start)%nat as len eqn:Hlen.
  revert start Hlen. induction len as [|len IH]; intros start Hlen.
  - simpl. symmetry. apply drop_ge. lia.
  - cbn [seq omap list_omap].
    destruct (l !! start) as [x|] eqn:Hx.
    + rewrite IH by lia.
      symmetry. erewrite drop_S by exact Hx. reflexivity.
    + apply lookup_ge_None in Hx. lia.
Qed.

(** Whatever the order of arrival, the merge makes the writes of the
    chunks, each once. *)
Lemma merged_writes_Permutation (outs : list (list (cell * R)))
    (arrival : list nat) :
  arrival ≡ₚ seq 0 (length outs) ->
  merged_writes outs arrival ≡ₚ concat outs.
Proof.
  intros Harr. unfold merged_writes.
  rewrite Harr.
  pose proof (omap_lookup_seq outs 0) as Hseq.
  rewrite Nat.sub_0_r, drop_0 in Hseq. rewrite Hseq. reflexivity.
Qed.

(** A pool run and the sequential fill over the same cells have the
    same result, whatever the chunks and the order of arrival. *)
Lemma run_pool_sequential (chunks : list (list cell)) (params : list cell)
    (arrival : list nat) (T : tensor) :
  concat chunks = params ->
  NoDup params ->
  arrival ≡ₚ seq 0 (length chunks) ->
  forall T',
    outcome (run_pool sim chunks arrival T) = Ok T' <->
    outcome (sequential_fill sim params [] T) = Ok T'.
Proof.
  intros Hcat Hnd Harr T'.
  unfold run_pool. cbn [outcome]. rewrite sequential_fill_outcome.
  assert (Hsame : forall outs, chunk_results sim chunks outs ->
            write_chunk T (merged_writes outs arrival)
            = write_chunk T (concat outs)).
  { intros outs Hres. apply write_chunk_Permutation.
    - apply merged_writes_Permutation.
      rewrite <- (Forall2_length _ _ _ Hres). exact Harr.
    - pose proof (merged_writes_Permutation outs arrival) as Hp.
      rewrite <- (Forall2_length _ _ _ Hres) in Hp. specialize (Hp Harr).
      rewrite (Permutation_map fst Hp).
      rewrite (eval_cells_keys _ _ (chunk_results_concat _ _ Hres)).
      rewrite Hcat. exact Hnd. }
  split; intros H.
  - assert (Hall : forall n chunk, chunks !! n = Some chunk ->
                     exists o, eval_cells sim chunk = Ok o).
    { intros n chunk Hc.
      eapply (process_futures_Ok_inv _ _ _ _ H n chunk); [| exact Hc].
      rewrite Harr. apply elem_of_seq.
      apply lookup_lt_Some in Hc. lia. }
    destruct (chunk_results_exist _ Hall) as [outs Hres].
    rewrite (process_futures_writes _ _ _ _ Hres) in H. injection H as <-.
    rewrite <- Hcat, (chunk_results_concat _ _ Hres). cbn [bind].
    rewrite (Hsame _ Hres). reflexivity.
  - apply bind_Ok_inv in H as (o & Ho & H). injection H as <-.
    rewrite <- Hcat in Ho.
    destruct (chunk_results_of_concat _ _ Ho) as (outs & Hres & ->).
    rewrite (process_futures_writes _ _ _ _ Hres).
    rewrite (Hsame _ Hres). reflexivity.
Qed.

End SweepFacts.

(** *** The index set and its partition into chunks *)

Lemma flat_map_bind {A B : Type} (f : A -> list B) (l : list A) :
  flat_map f l = l ≫= f.
Proof. induction l as [|x l IH]; simpl; [reflexivity | rewrite IH; reflexivity]. Qed.

Lemma elem_of_all_params (NA NB NV : nat) (c : cell) :
  c ∈ all_params NA NB NV <->
  (c.1.1 < NA)%nat /\ (c.1.2 < NB)%nat /\ (c.2 < NV)%nat.
Proof.
  destruct c as [[i j] k]. unfold all_params. simpl.
  rewrite list_elem_of_In, in_flat_map. split.
  - intros (i' & Hi & H). apply in_flat_map in H as (j' & Hj & H).
    apply in_map_iff in H as (k' & Heq & Hk). injection Heq as -> -> ->.
    apply in_seq in Hi, Hj, Hk. lia.
  - intros (Hi & Hj & Hk). exists i. split; [apply in_seq; lia|].
    apply in_flat_map. exists j. split; [apply in_seq; lia|].
    apply in_map_iff. exists k. split; [reflexivity | apply in_seq; lia].
Qed.

Lemma NoDup_all_params (NA NB NV : nat) : NoDup (all_params NA NB NV).
Proof.
  unfold all_params. rewrite flat_map_bind. apply NoDup_bind.
  - intros i1 i2 [[i j] k] _ _ H1 H2.
    apply list_elem_of_In, in_flat_map in H1 as (j1 & _ & H1).
    apply list_elem_of_In, in_flat_map in H2 as (j2 & _ & H2).
    apply in_map_iff in H1 as (k1 & Heq1 & _).
    apply in_map_iff in H2 as (k2 & Heq2 & _). congruence.
  - intros i _. rewrite flat_map_bind. apply NoDup_bind.
    + intros j1 j2 [[i' j] k] _ _ H1 H2.
      apply list_elem_of_In, in_map_iff in H1 as (k1 & Heq1 & _).
      apply list_elem_of_In, in_map_iff in H2 as (k2 & Heq2 & _). congruence.
    + intros j _. change (map ?f ?l) with (f <$> l).
      apply NoDup_fmap_2; [| apply NoDup_seq].
      intros k1 k2 Heq. congruence.
    + apply NoDup_seq.
  - apply NoDup_seq.
Qed.

Lemma concat_singletons {A : Type} (l : list A) :
  concat (map (fun p => [p]) l) = l.
Proof. induction l as [|x l IH]; simpl; [reflexivity | rewrite IH; reflexivity]. Qed.

Lemma concat_slices {A : Type} (l : list A) (step fuel start : nat) :
  (0 < step)%nat -> (length l <= fuel + start)%nat ->
  concat (map (fun k => take step (drop k l))
              (range_step fuel start (length l) step))
  = drop start l.
Proof.
  intros Hstep. revert start.
  induction fuel as [|fuel IH]; intros start Hfuel; simpl.
  - symmetry. apply drop_ge. lia.
  - destruct (start <? length l)%nat eqn:Hlt.
    + simpl. rewrite IH by lia.
      rewrite <- (drop_drop l step start). apply take_drop.
    + apply Nat.ltb_ge in Hlt. symmetry. apply drop_ge. lia.
Qed.

(** The chunks, in order, make up the list of cells. *)
Lemma make_chunks_concat (chunk_size : Z) (params : list cell) :
  concat (make_chunks chunk_size params) = params.
Proof.
  unfold make_chunks. destruct (chunk_size <=? 1)%Z eqn:Hcs.
  - apply concat_singletons.
  - apply Z.leb_gt in Hcs.
    rewrite concat_slices by lia. apply drop_0.
Qed.



(** *** The sweep *)

Lemma parameter_sweep_valid (fuel : nat) (arrival : list nat) (r0 : vec)
    (v0_values : option ndarray) (v0s : list vec)
    (dt tf tol alpha : R) (A_values B_values : option (list R))
    (parallel : bool) (backend : string) (chunk_size : Z)
    (show_progress : bool) :
  validate_v0 v0_values = Ok v0s ->
  parameter_sweep fuel arrival r0 v0_values dt tf tol alpha
    A_values B_values parallel backend chunk_size show_progress
  = let A := match A_values with None => [1] | Some a => a end in
    let B := match B_values with None => [1] | Some b => b end in
    sweep_body (simulate fuel r0 v0s dt tf tol alpha A B)
      (length A) (length B) (length v0s)
      parallel backend chunk_size show_progress arrival.
Proof. intros Hv. unfold parameter_sweep. rewrite Hv. reflexivity. Qed.

Lemma parameter_sweep_invalid (fuel : nat) (arrival : list nat) (r0 : vec)
    (v0_values : option ndarray) (e : failure)
    (dt tf tol alpha : R) (A_values B_values : option (list R))
    (parallel : bool) (backend : string) (chunk_size : Z)
    (show_progress : bool) :
  validate_v0 v0_values = Fail e ->
  parameter_sweep fuel arrival r0 v0_values dt tf tol alpha
    A_values B_values parallel backend chunk_size show_progress
  = Traced [] (Fail e).
Proof. intros Hv. unfold parameter_sweep. rewrite Hv. reflexivity. Qed.

Lemma validate_v0_failure (v0_values : option ndarray) (e : failure) :
  validate_v0 v0_values = Fail e -> exists msg, e = ValueError msg.
Proof.
  destruct v0_values as [[x|xs|rows|n]|]; simpl; intros H;
    try (injection H as <-; eauto); try discriminate.
  destruct (0 <? length xs)%nat; [discriminate | injection H as <-; eauto].
Qed.

Lemma sweep_body_sequential (sim : cell -> M R) (NA NB NV : nat)
    (backend : string) (chunk_size : Z) (show_progress : bool)
    (arrival : list nat) :
  sweep_body sim NA NB NV false backend chunk_size show_progress arrival
  = sequential_fill sim (all_params NA NB NV) [] (zeros NA NB NV).
Proof. unfold sweep_body, tqdm. simpl. destruct show_progress; reflexivity. Qed.

Lemma sweep_body_parallel (sim : cell -> M R) (NA NB NV : nat)
    (backend : string) (chunk_size : Z) (show_progress : bool)
    (arrival : list nat) :
  known_backend backend ->
  sweep_body sim NA NB NV true backend chunk_size show_progress arrival
  = run_pool sim (make_chunks chunk_size (all_params NA NB NV)) arrival
      (zeros NA NB NV).
Proof.
  intros [-> | [-> | ->]]; reflexivity.
Qed.

Lemma sweep_body_unknown_backend (sim : cell -> M R) (NA NB NV : nat)
    (backend : string) (chunk_size : Z) (show_progress : bool)
    (arrival : list nat) :
  ~ known_backend backend ->
  sweep_body sim NA NB NV true backend chunk_size show_progress arrival
  = Traced [] (Fail (ValueError (msg_backend backend))).
Proof.
  intros Hb. unfold sweep_body. simpl.
  destruct (String.eqb backend "thread") eqn:H1.
  { apply String.eqb_eq in H1. exfalso. apply Hb. left. exact H1. }
  destruct (String.eqb backend "process") eqn:H2.
  { apply String.eqb_eq in H2. exfalso. apply Hb. right. left. exact H2. }
  destruct (String.eqb backend "multiprocessing") eqn:H3.
  { apply String.eqb_eq in H3. exfalso. apply Hb. right. right. exact H3. }
  reflexivity.
Qed.

Lemma process_futures_shape (futures : list (traced (list (cell * R))))
    (arrival : list nat) (T T' : tensor) (a b c : nat) :
  has_shape T a b c ->
  process_futures futures arrival T = Ok T' ->
  has_shape T' a b c.
Proof.
  revert T. induction arrival as [|n arrival IH]; intros T HT H; simpl in H.
  - injection H as <-. exact HT.
  - destruct (futures !! n) as [future|].
    + apply bind_Ok_inv in H as (o & _ & H).
      eapply IH; [| exact H]. apply has_shape_write_chunk, HT.
    + eapply IH; eassumption.
Qed.

(** A sweep that returns an array returns one of the shape of the
    grid. *)
Lemma sweep_body_shape (sim : cell -> M R) (NA NB NV : nat)
    (parallel : bool) (backend : string) (chunk_size : Z)
    (show_progress : bool) (arrival : list nat) (T : tensor) :
  outcome (sweep_body sim NA NB NV parallel backend chunk_size
             show_progress arrival) = Ok T ->
  has_shape T NA NB NV.
Proof.
  destruct parallel.
  - unfold sweep_body. simpl.
    assert (Hpool : forall chunks,
              outcome (run_pool sim chunks arrival (zeros NA NB NV)) = Ok T ->
              has_shape T NA NB NV).
    { intros chunks H. unfold run_pool in H. cbn [outcome] in H.
      eapply process_futures_shape; [apply has_shape_zeros | exact H]. }
    destruct (String.eqb backend "thread"); [apply Hpool|].
    destruct (String.eqb backend "process"); [apply Hpool|].
    destruct (String.eqb backend "multiprocessing"); [apply Hpool|].
    discriminate.
  - rewrite sweep_body_sequential, sequential_fill_outcome. intros H.
    apply bind_Ok_inv in H as (o & _ & H). injection H as <-.
    apply has_shape_write_chunk, has_shape_zeros.
Qed.

(** The two paths of the sweep agree, whatever the chunk size and the
    order in which the pool completes the chunks. *)
Lemma sweep_body_parallel_sequential (sim : cell -> M R) (NA NB NV : nat)
    (backend backend' : string) (chunk_size chunk_size' : Z)
    (show_progress show_progress' : bool) (arrival arrival' : list nat)
    (T : tensor) :
  known_backend backend ->
  arrival ≡ₚ seq 0 (length (make_chunks chunk_size (all_params NA NB NV))) ->
  outcome (sweep_body sim NA NB NV true backend chunk_size
             show_progress arrival) = Ok T <->
  outcome (sweep_body sim NA NB NV false backend' chunk_size'
             show_progress' arrival') = Ok T.
Proof.
  intros Hb Harr.
  rewrite sweep_body_parallel by exact Hb.
  rewrite sweep_body_sequential.
  apply run_pool_sequential;
    [apply make_chunks_concat | apply NoDup_all_params | exact Harr].
Qed.

(** An array returned by the sequential fill holds, in every cell of the
    grid, the result of that cell's own simulation. *)
Lemma sequential_fill_cells (sim : cell -> M R) (NA NB NV : nat)
    (T : tensor) :
  outcome (sequential_fill sim (all_params NA NB NV) []
             (zeros NA NB NV)) = Ok T ->
  forall c, c ∈ all_params NA NB NV ->
            exists t, sim c = Ok t /\ tensor_get T c = Some t.
Proof.
  rewrite sequential_fill_outcome. intros H c Hc.
  apply bind_Ok_inv in H as (o & Ho & H). injection H as <-.
  pose proof (eval_cells_keys _ _ _ Ho) as Hkeys.
  pose proof (eval_cells_values _ _ _ Ho) as Hvals.
  rewrite <- Hkeys in Hc.
  apply list_elem_of_In, in_map_iff in Hc as ([c' t] & Heq & Hin).
  simpl in Heq. subst c'. apply list_elem_of_In in Hin.
  exists t. split.
  - apply (proj1 (Forall_forall _ _) Hvals (c, t) Hin).
  - eapply write_chunk_get; [apply has_shape_zeros | | | exact Hin].
    + rewrite Hkeys. apply NoDup_all_params.
    + apply Forall_forall. intros [c' t'] Hin'.
      apply (elem_of_all_params NA NB NV c').
      rewrite <- Hkeys. apply list_elem_of_In, in_map_iff.
      exists (c', t'). split; [reflexivity | apply list_elem_of_In, Hin'].
Qed.



Lemma sequential_single_cell :
  parameter_sweep 1 [] [0] (Some (Arr2 [[0]])) 2 3 1e-7 0 None None
    false "gpu" 8 true
  = Traced [(0, 0, 0)%nat] (Ok [[[3]]]).
Proof.
  rewrite (parameter_sweep_valid _ _ _ _ [[0]]) by reflexivity.
  cbv zeta. rewrite sweep_body_sequential.
  change (all_params (length [1]) (length [1]) (length [[0]]))
    with [(0, 0, 0)%nat].
  cbn [sequential_fill].
  assert (Hsim : simulate 1 [0] [[0]] 2 3 1e-7 0 [1] [1] (0, 0, 0)%nat
                 = Ok 3).
  { unfold simulate. cbn [lookup list_lookup].
    apply (zero_budget_time 0 _ _ _ _ _ _ _ _ 1 num_steps_3_2). lia. }
  rewrite Hsim. reflexivity.
Qed.

(** C8, refuted as stated: with [parallel=False] the backend string is
    never looked at; the call with the unknown backend ['gpu'] runs the
    simulation of its one cell and returns the results array. *)
Lemma unknown_backend_accepted_when_sequential :
  ~ known_backend "gpu" /\
  parameter_sweep 1 [] [0] (Some (Arr2 [[0]])) 2 3 1e-7 0 None None
    false "gpu" 8 true
  = Traced [(0, 0, 0)%nat] (Ok [[[3]]]).
Proof.
  split; [| exact sequential_single_cell].
  intros [H | [H | H]]; discriminate.
Qed.

(** C8, amended: with [parallel=True] a backend other than ['thread'],
    ['process'] and ['multiprocessing'] makes the call fail with a
    [ValueError] before any simulation is run (the trace of simulation
    calls is empty); when [v0_values] is valid the error is the one that
    names the backend.  With [parallel=False] the backend is ignored. *)
Theorem unknown_backend_rejected_when_parallel (fuel : nat)
    (arrival : list nat) (r0 : vec) (v0_values : option ndarray)
    (dt tf tol alpha : R) (A_values B_values : option (list R))
    (backend : string) (chunk_size : Z) (show_progress : bool) :
  ~ known_backend backend ->
  (exists msg,
     parameter_sweep fuel arrival r0 v0_values dt tf tol alpha
       A_values B_values true backend chunk_size show_progress
     = Traced [] (Fail (ValueError msg))) /\
  (forall v0s, validate_v0 v0_values = Ok v0s ->
     parameter_sweep fuel arrival r0 v0_values dt tf tol alpha
       A_values B_values true backend chunk_size show_progress
     = Traced [] (Fail (ValueError (msg_backend backend)))) /\
  (forall backend',
     parameter_sweep fuel arrival r0 v0_values dt tf tol alpha
       A_values B_values false backend chunk_size show_progress
     = parameter_sweep fuel arrival r0 v0_values dt tf tol alpha
         A_values B_values false backend' chunk_size show_progress).
Proof.
  intros Hb.
  assert (Hvalid : forall v0s, validate_v0 v0_values = Ok v0s ->
     parameter_sweep fuel arrival r0 v0_values dt tf tol alpha
       A_values B_values true backend chunk_size show_progress
     = Traced [] (Fail (ValueError (msg_backend backend)))).
  { intros v0s Hv. rewrite (parameter_sweep_valid _ _ _ _ _ _ _ _ _ _ _ _ _ _ _ Hv).
    cbv zeta. apply sweep_body_unknown_backend, Hb. }
  split; [| split; [exact Hvalid|]].
  - destruct (validate_v0 v0_values) as [v0s|e] eqn:Hv.
    + eexists. apply (Hvalid v0s eq_refl).
    + destruct (validate_v0_failure _ _ Hv) as [msg ->].
      exists msg. apply parameter_sweep_invalid, Hv.
  - intros backend'. unfold parameter_sweep.
    destruct (validate_v0 v0_values); [| reflexivity].
    rewrite !sweep_body_sequential. reflexivity.
Qed.

Lemma unknown_backend_rejected_when_parallel_witness :
  parameter_sweep 1 [] [0] (Some (Arr2 [[0]])) 2 3 1e-7 0 None None
    true "gpu" 8 true
  = Traced [] (Fail (ValueError (msg_backend "gpu"))).
Proof.
  refine (proj1 (proj2 (unknown_backend_rejected_when_parallel 1 [] [0]
            (Some (Arr2 [[0]])) 2 3 1e-7 0 None None "gpu" 8 true _))
            [[0]] eq_refl).
  intros [H | [H | H]]; discriminate.
Defined.

(** C9, refuted as stated: an empty array of two dimensions (no rows,
    as [np.empty((0, 3))]) passes the validation; the call returns an
    array of shape [(1, 1, 0)] and raises nothing. *)
Lemma empty_2d_v0_values_accepted :
  parameter_sweep 1 [] [0; 1; 0] (Some (Arr2 [])) 0.01 10 1e-7 0 None None
    false "thread" 8 true
  = Traced [] (Ok [[[]]]).
Proof. reflexivity. Qed.

(** C9, amended: [v0_values=None] raises a [ValueError], and so does an
    array that is not of two dimensions unless it is a flat vector that
    is not empty (the empty list raises; an empty array of two dimensions
    does not).  A flat vector that is not empty is promoted to a list of
    one vector: the call behaves as on that list, and the array it
    returns has shape [(N_A, N_B, 1)]; it returns one when every
    simulation returns (on the parallel path: for a known backend and a
    complete order of arrival). *)
Theorem v0_values_validation (fuel : nat) (arrival : list nat) (r0 : vec)
    (dt tf tol alpha : R) (A_values B_values : option (list R))
    (parallel : bool) (backend : string) (chunk_size : Z)
    (show_progress : bool) :
  let sweep v0_values :=
    parameter_sweep fuel arrival r0 v0_values dt tf tol alpha
      A_values B_values parallel backend chunk_size show_progress in
  let A := match A_values with None => [1] | Some a => a end in
  let B := match B_values with None => [1] | Some b => b end in
  sweep None = Traced [] (Fail (ValueError msg_v0_missing)) /\
  sweep (Some (Arr1 [])) = Traced [] (Fail (ValueError msg_v0_shape)) /\
  (forall x, sweep (Some (Arr0 x))
             = Traced [] (Fail (ValueError msg_v0_shape))) /\
  (forall n, sweep (Some (ArrN n))
             = Traced [] (Fail (ValueError msg_v0_shape))) /\
  (forall xs : list R, xs <> [] ->
     validate_v0 (Some (Arr1 xs)) = Ok [xs] /\
     sweep (Some (Arr1 xs)) = sweep (Some (Arr2 [xs])) /\
     (forall T, outcome (sweep (Some (Arr1 xs))) = Ok T ->
                has_shape T (length A) (length B) 1) /\
     ((forall c, c ∈ all_params (length A) (length B) 1 ->
         exists t, simulate fuel r0 [xs] dt tf tol alpha A B c = Ok t) ->
      (parallel = true ->
         known_backend backend /\
         arrival ≡ₚ seq 0 (length (chunks_of A_values B_values [xs]
                                      chunk_size))) ->
      exists T, outcome (sweep (Some (Arr1 xs))) = Ok T /\
                has_shape T (length A) (length B) 1)).
Proof.
  intros sweep A B.
  split; [reflexivity | split; [reflexivity | split; [reflexivity |
    split; [reflexivity |]]]].
  intros xs Hxs.
  assert (Hv : validate_v0 (Some (Arr1 xs)) = Ok [xs]).
  { destruct xs; [contradiction | reflexivity]. }
  assert (Hshape : forall T, outcome (sweep (Some (Arr1 xs))) = Ok T ->
                     has_shape T (length A) (length B) 1).
  { intros T H. unfold sweep in H.
    rewrite (parameter_sweep_valid _ _ _ _ _ _ _ _ _ _ _ _ _ _ _ Hv) in H.
    cbv zeta in H. apply sweep_body_shape in H. exact H. }
  split; [exact Hv | split; [| split; [exact Hshape|]]].
  - unfold sweep, parameter_sweep. rewrite Hv. reflexivity.
  - intros Hsim Hpar.
    assert (Hseq : exists T,
              outcome (sequential_fill
                         (simulate fuel r0 [xs] dt tf tol alpha A B)
                         (all_params (length A) (length B) 1) []
                         (zeros (length A) (length B) 1)) = Ok T).
    { rewrite sequential_fill_outcome.
      destruct (eval_cells_total _ _ Hsim) as [o Ho].
      rewrite Ho. cbn [bind]. eauto. }
    destruct Hseq as [T HT].
    exists T. split; [| apply Hshape].
    all: unfold sweep;
      rewrite (parameter_sweep_valid _ _ _ _ _ _ _ _ _ _ _ _ _ _ _ Hv);
      cbv zeta; destruct parallel.
    all: try (rewrite sweep_body_sequential; exact HT).
    all: destruct (Hpar eq_refl) as [Hb Harr];
      apply (sweep_body_parallel_sequential _ _ _ _ backend backend
               chunk_size chunk_size show_progress show_progress
               arrival arrival T Hb Harr);
      rewrite sweep_body_sequential; exact HT.
Qed.

Lemma v0_values_validation_witness :
  exists T,
    outcome (parameter_sweep 1 [] [0] (Some (Arr1 [0])) 2 3 1e-7 0
               None None false "thread" 8 true) = Ok T /\
    has_shape T 1 1 1.
Proof.
  refine (proj2 (proj2 (proj2
    (proj2 (proj2 (proj2 (proj2
       (v0_values_validation 1 [] [0] 2 3 1e-7 0 None None false
          "thread" 8 true)))) [0] _))) _ _).
  - discriminate.
  - intros c Hc.
    apply list_elem_of_singleton in Hc as ->.
    exists 3. unfold simulate. cbn [lookup list_lookup].
    apply (zero_budget_time 0 _ _ _ _ _ _ _ _ 1 num_steps_3_2). lia.
  - discriminate.
Defined.

(** * Further properties of the kernels and the integrator *)

Lemma sumsq_map_opp (a : vec) : sumsq (map Ropp a) = sumsq a.
Proof. induction a as [|x a IH]; simpl; [reflexivity | rewrite IH; ring]. Qed.

Lemma norm_map_opp (a : vec) : norm (map Ropp a) = norm a.
Proof. unfold norm. rewrite sumsq_map_opp. reflexivity. Qed.

(** The pull is central: [acceleration(-r)] is [-acceleration(r)], for
    every [r], inside the guard or outside. *)
Theorem acceleration_odd (r : vec) :
  acceleration (map Ropp r) = map Ropp (acceleration r).
Proof.
  unfold acceleration. rewrite norm_map_opp.
  destruct (Rlt_dec (norm r) 1e-10) as [Hlt|Hge].
  - unfold zeros_like. rewrite !map_map. apply map_ext. intros x. ring.
  - unfold divs, scale. rewrite !map_map. apply map_ext. intros x.
    unfold Rdiv. ring.
Qed.

(** The inverse square law: outside the guard, moving [c] times as far
    out divides the pull by [c^2]. *)
Theorem acceleration_inverse_square_scaling (c : R) (r : vec) :
  0 < c -> 1e-10 <= norm r -> 1e-10 <= c * norm r ->
  acceleration (scale c r) = scale (/ (c * c)) (acceleration r).
Proof.
  intros Hc Hr Hcr.
  assert (Hn : norm (scale c r) = c * norm r).
  { unfold scale. rewrite norm_map_mult, Rabs_pos_eq by lra. reflexivity. }
  rewrite !acceleration_far by (rewrite ?Hn; lra).
  rewrite Hn. unfold scale. rewrite !map_map. apply map_ext. intros x.
  field. lra.
Qed.

Lemma acceleration_inverse_square_scaling_witness :
  acceleration (scale 2 [0; 1; 0]) = scale (/ (2 * 2)) (acceleration [0; 1; 0]).
Proof.
  assert (H1 : norm [0; 1; 0] = 1).
  { unfold norm, sumsq. simpl.
    replace (0 * 0 + (1 * 1 + (0 * 0 + 0))) with 1 by lra. apply sqrt_1. }
  apply (acceleration_inverse_square_scaling 2 [0; 1; 0]); rewrite ?H1; lra.
Defined.

(** For [A >= 0] and [B > 0] the drag opposes the velocity: it is
    [-c * v] with [c = A / (|v|^3 + B) >= 0], of magnitude
    [A |v| / (|v|^3 + B)], at most [A |v| / B]. *)
Theorem vel_dispersion_opposes_velocity (v : vec) (A B : R) :
  0 <= A -> 0 < B ->
  exists c,
    0 <= c /\
    vel_dispersion v A B = Ok (scale (- c) v) /\
    norm (scale (- c) v) = A * norm v / (norm v ^ 3 + B) /\
    norm (scale (- c) v) <= A * norm v / B.
Proof.
  intros HA HB.
  pose proof (norm_nonneg v) as Hn.
  pose proof (pow_le (norm v) 3 Hn) as Hn3.
  assert (Hden : 0 < norm v ^ 3 + B) by lra.
  exists (A / (norm v ^ 3 + B)).
  assert (Hc : 0 <= A / (norm v ^ 3 + B)).
  { apply Rmult_le_pos; [exact HA | left; apply Rinv_0_lt_compat, Hden]. }
  split; [exact Hc | split; [| split]].
  - rewrite vel_dispersion_defined by lra. f_equal. f_equal.
    unfold Rdiv. ring.
  - unfold scale. rewrite norm_map_mult, Rabs_Ropp, Rabs_pos_eq by exact Hc.
    unfold Rdiv. ring.
  - unfold scale. rewrite norm_map_mult, Rabs_Ropp, Rabs_pos_eq by exact Hc.
    unfold Rdiv.
    assert (Hinv : / (norm v ^ 3 + B) <= / B)
      by (apply Rinv_le_contravar; lra).
    assert (HAn : 0 <= A * norm v) by (apply Rmult_le_pos; assumption).
    replace (A * / (norm v ^ 3 + B) * norm v)
      with (A * norm v * / (norm v ^ 3 + B)) by ring.
    apply Rmult_le_compat_l; assumption.
Qed.

Lemma vel_dispersion_opposes_velocity_witness :
  exists c, 0 <= c /\ vel_dispersion [0; 3; 4] 1 1 = Ok (scale (- c) [0; 3; 4]).
Proof.
  destruct (vel_dispersion_opposes_velocity [0; 3; 4] 1 1) as (c & Hc & Hv & _);
    [lra | lra |].
  exists c. split; assumption.
Defined.

Lemma bind_Fail_inv {A B : Type} (m : M A) (k : A -> M B) (e : failure) :
  bind m k = Fail e -> m = Fail e \/ exists a, m = Ok a /\ k a = Fail e.
Proof.
  destruct m as [a|e']; simpl; intros H; [right; eauto | left].
  injection H as ->. reflexivity.
Qed.

Lemma vel_dispersion_failure (v : vec) (A B : R) (e : failure) :
  vel_dispersion v A B = Fail e -> e = ZeroDivisionError.
Proof.
  unfold vel_dispersion. destruct (Req_dec_T _ _); [| discriminate].
  intros H. injection H as <-. reflexivity.
Qed.

Lemma rk4_step_failure (r v : vec) (dt alpha A B : R) (e : failure) :
  rk4_step r v dt alpha A B = Fail e -> e = ZeroDivisionError.
Proof.
  unfold rk4_step. intros H.
  repeat (apply bind_Fail_inv in H as [H | (? & _ & H)];
          [eapply vel_dispersion_failure; exact H | cbv beta zeta in H]).
  discriminate.
Qed.

Lemma rk4_step_defined (r v : vec) (dt alpha A B : R) :
  0 < B ->
  exists r' v',
    rk4_step r v dt alpha A B = Ok (r', v') /\
    (length r = length v -> length r' = length r /\ length v' = length r).
Proof.
  intros HB. unfold rk4_step.
  repeat (rewrite vel_dispersion_defined
            by (apply vel_dispersion_denominator_pos, HB);
          cbv beta iota zeta delta [bind]).
  eexists _, _. split; [reflexivity|].
  intros Hlen. split; solve_length.
Qed.

(** With [B > 0] no denominator of the drag is zero: a step from a
    position and a velocity of the same length returns, and the new
    position and velocity have that length. *)
Theorem rk4_step_returns_for_positive_B (r v : vec) (dt alpha A B : R) :
  0 < B -> length r = length v ->
  exists r' v',
    rk4_step r v dt alpha A B = Ok (r', v') /\
    length r' = length r /\ length v' = length r.
Proof.
  intros HB Hlen.
  destruct (rk4_step_defined r v dt alpha A B HB) as (r' & v' & Hstep & Hl).
  exists r', v'. split; [exact Hstep | exact (Hl Hlen)].
Qed.

Lemma rk4_step_returns_for_positive_B_witness :
  exists r' v',
    rk4_step [1; 0] [0; 1] 0.5 1 1 1 = Ok (r', v') /\
    length r' = 2%nat /\ length v' = 2%nat.
Proof.
  assert (HB : 0 < 1) by lra.
  exact (rk4_step_returns_for_positive_B [1; 0] [0; 1] 0.5 1 1 1 HB eq_refl).
Defined.

(** A step of size [dt = 0] leaves the state as it is, drag or no
    drag. *)
Theorem rk4_step_zero_dt (r v : vec) (alpha A B : R) :
  0 < B -> length r = length v ->
  rk4_step r v 0 alpha A B = Ok (r, v).
Proof.
  intros HB Hlen. unfold rk4_step.
  repeat (rewrite vel_dispersion_defined
            by (apply vel_dispersion_denominator_pos, HB);
          cbv beta iota zeta delta [bind]).
  replace (0 / 6) with 0 by lra.
  f_equal. f_equal; apply add_scale_0_r; solve_length.
Qed.

Lemma rk4_step_zero_dt_witness :
  rk4_step [0; 1; 0] [0.5; 0; 0] 0 1 1 1 = Ok ([0; 1; 0], [0.5; 0; 0]).
Proof. apply rk4_step_zero_dt; [lra | reflexivity]. Defined.

Lemma norm_replicate_0 (n : nat) : norm (replicate n 0) = 0.
Proof.
  unfold norm.
  assert (H : sumsq (replicate n 0) = 0).
  { induction n as [|n IH]; simpl; [reflexivity | rewrite IH; lra]. }
  rewrite H. apply sqrt_0.
Qed.

Lemma scale_replicate_0 (c : R) (n : nat) :
  scale c (replicate n 0) = replicate n 0.
Proof.
  unfold scale. induction n as [|n IH]; simpl; [reflexivity|].
  rewrite IH, Rmult_0_r. reflexivity.
Qed.

Lemma add_replicate_0 (n : nat) :
  add (replicate n 0) (replicate n 0) = replicate n 0.
Proof.
  unfold add. induction n as [|n IH]; simpl; [reflexivity|].
  rewrite IH, Rplus_0_r. reflexivity.
Qed.

Lemma acceleration_replicate_0 (n : nat) :
  acceleration (replicate n 0) = replicate n 0.
Proof.
  rewrite acceleration_near by (rewrite norm_replicate_0; lra).
  unfold zeros_like. induction n as [|n IH]; simpl; [reflexivity|].
  rewrite IH. reflexivity.
Qed.

Lemma vel_dispersion_replicate_0 (n : nat) (A B : R) :
  B <> 0 -> vel_dispersion (replicate n 0) A B = Ok (replicate n 0).
Proof.
  intros HB. rewrite vel_dispersion_defined.
  - rewrite scale_replicate_0. reflexivity.
  - rewrite norm_replicate_0. simpl. lra.
Qed.

(** The singularity guard makes the origin a rest point: a particle at
    rest at the origin stays there under [rk4_step], in every dimension
    and for every step size, with or without drag (for [B <> 0]). *)
Theorem rk4_step_rest_at_origin (n : nat) (dt alpha A B : R) :
  B <> 0 ->
  rk4_step (replicate n 0) (replicate n 0) dt alpha A B
  = Ok (replicate n 0, replicate n 0).
Proof.
  intros HB. unfold rk4_step.
  repeat first
    [ rewrite acceleration_replicate_0
    | rewrite scale_replicate_0
    | rewrite add_replicate_0
    | rewrite vel_dispersion_replicate_0 by exact HB
    | progress cbv beta iota zeta delta [bind] ].
  reflexivity.
Qed.

Lemma rk4_step_rest_at_origin_witness :
  rk4_step (replicate 3 0) (replicate 3 0) 0.01 1 1 1
  = Ok (replicate 3 0, replicate 3 0).
Proof. apply rk4_step_rest_at_origin. lra. Defined.

(** * Further properties of the adaptive driver *)

Lemma loop_body_failure (tol alpha A B : R) (s : loop_state) (e : failure) :
  loop_body tol alpha A B s = Fail e -> e = ZeroDivisionError.
Proof.
  unfold loop_body. intros H.
  apply bind_Fail_inv in H as [H | ([ra va] & _ & H)];
    [eapply rk4_step_failure; exact H | cbv beta iota zeta in H].
  apply bind_Fail_inv in H as [H | ([r1 v1] & _ & H)];
    [eapply rk4_step_failure; exact H | cbv beta iota zeta in H].
  apply bind_Fail_inv in H as [H | ([r2 v2] & _ & H)];
    [eapply rk4_step_failure; exact H | cbv beta iota zeta in H].
  discriminate.
Qed.

Lemma loop_body_defined (tol alpha A B : R) (s : loop_state) :
  0 < B -> exists s' crossed, loop_body tol alpha A B s = Ok (s', crossed).
Proof.
  intros HB.
  destruct (rk4_step_defined (st_r s) (st_v s) (st_dt s) alpha A B HB)
    as (ra & va & Ha & _).
  destruct (rk4_step_defined ra va (st_dt s) alpha A B HB)
    as (r1 & v1 & H1 & _).
  destruct (rk4_step_defined (st_r s) (st_v s) (2 * st_dt s) alpha A B HB)
    as (r2 & v2 & H2 & _).
  rewrite (loop_body_unfold _ _ _ _ _ _ _ _ _ _ _ Ha H1 H2).
  cbv zeta. eauto.
Qed.

Lemma adaptive_loop_failure (fuel : nat) (budget : Z) (tol alpha A B : R)
    (n : nat) (s : loop_state) (e : failure) :
  adaptive_loop fuel budget tol alpha A B n s = Fail e ->
  e = OutOfFuel \/
  (e = ZeroDivisionError /\ ~ 0 < B).
Proof.
  revert n s. induction fuel as [|fuel IH]; intros n s H; simpl in H.
  - injection H as <-. left. reflexivity.
  - destruct (st_i s <? budget)%Z; [| discriminate].
    apply bind_Fail_inv in H as [H | ([s' c] & Hbody & H)].
    + right. split; [eapply loop_body_failure; exact H|].
      intros HB. destruct (loop_body_defined tol alpha A B s HB)
        as (s' & c & Hok). congruence.
    + cbv beta iota zeta in H. destruct c; [discriminate|].
      eapply IH; exact H.
Qed.

(** Division by zero in [time_to_schwarzschild], for [B > 0] and
    [r0], [v0] of the same length: the loop divides by no zero, whatever
    budget the conversion [int(tf / dt)] gave it, so the call raises
    [ZeroDivisionError] exactly when [dt = 0], at [tf / dt]. *)
Theorem time_to_schwarzschild_zero_division_iff (fuel : nat) (r0 v0 : vec)
    (dt tf tol alpha A B : R) :
  0 < B -> length r0 = length v0 ->
  (forall budget,
     adaptive_loop fuel budget tol alpha A B 0 (init_state r0 v0 dt)
       <> Fail ZeroDivisionError) /\
  (time_to_schwarzschild fuel r0 v0 dt tf tol alpha A B
     = Fail ZeroDivisionError <-> dt = 0).
Proof.
  intros HB _.
  assert (Hloop : forall budget,
            adaptive_loop fuel budget tol alpha A B 0 (init_state r0 v0 dt)
              <> Fail ZeroDivisionError).
  { intros budget H.
    apply adaptive_loop_failure in H as [H | [_ HnB]];
      [discriminate | exact (HnB HB)]. }
  split; [exact Hloop|]. split.
  - intros H. unfold time_to_schwarzschild, run_to_schwarzschild in H.
    apply bind_Fail_inv in H as [H | (out & _ & H)];
      [| destruct (run_exit out); discriminate].
    apply bind_Fail_inv in H as [H | (n & _ & H)].
    + unfold num_steps in H. destruct (Req_dec_T dt 0); [assumption|].
      discriminate.
    + exfalso. exact (Hloop _ H).
  - intros ->. unfold time_to_schwarzschild, run_to_schwarzschild, num_steps.
    destruct (Req_dec_T 0 0) as [_|Hne]; [reflexivity | contradiction].
Qed.

Lemma time_to_schwarzschild_zero_division_iff_witness :
  time_to_schwarzschild 5 [1; 0] [0; 1] 0 4 1e-7 0 1 1
    = Fail ZeroDivisionError.
Proof.
  assert (HB : 0 < 1) by lra.
  exact (proj2 (proj2 (time_to_schwarzschild_zero_division_iff
                         5 [1; 0] [0; 1] 0 4 1e-7 0 1 1 HB eq_refl))
           eq_refl).
Defined.

Lemma adaptive_loop_more_fuel (fuel fuel' : nat) (budget : Z)
    (tol alpha A B : R) (n : nat) (s : loop_state) (out : run) :
  (fuel <= fuel')%nat ->
  adaptive_loop fuel budget tol alpha A B n s = Ok out ->
  adaptive_loop fuel' budget tol alpha A B n s = Ok out.
Proof.
  revert fuel' n s. induction fuel as [|fuel IH]; intros fuel' n s Hle H.
  - discriminate.
  - destruct fuel' as [|fuel']; [lia|]. simpl in *.
    destruct (st_i s <? budget)%Z; [| exact H].
    destruct (loop_body tol alpha A B s) as [[s' c]|e]; [| discriminate].
    cbn [bind] in *. destruct c; [exact H|].
    apply IH; [lia | exact H].
Qed.

(** The fuel of the model only bounds the number of iterations looked
    at: a time returned within some fuel is the time returned with any
    larger fuel. *)
Theorem time_to_schwarzschild_more_fuel (fuel fuel' : nat) (r0 v0 : vec)
    (dt tf tol alpha A B t : R) :
  (fuel <= fuel')%nat ->
  time_to_schwarzschild fuel r0 v0 dt tf tol alpha A B = Ok t ->
  time_to_schwarzschild fuel' r0 v0 dt tf tol alpha A B = Ok t.
Proof.
  intros Hle H. unfold time_to_schwarzschild, run_to_schwarzschild in *.
  destruct (num_steps tf dt) as [n|e]; [| discriminate]. cbn [bind] in *.
  destruct (adaptive_loop fuel (n / 2) tol alpha A B 0 (init_state r0 v0 dt))
    as [out|e] eqn:Hrun; [| discriminate].
  rewrite (adaptive_loop_more_fuel _ _ _ _ _ _ _ _ _ _ Hle Hrun).
  exact H.
Qed.

Lemma fast_flight_time :
  time_to_schwarzschild 2 [6e10] [-1e10] 1 4 1e-7 0 1 1 = Ok 6.
Proof.
  destruct fast_flight_run as (s' & Hrun & Ht).
  unfold time_to_schwarzschild. rewrite Hrun.
  cbn [bind run_exit run_state]. rewrite Ht. reflexivity.
Qed.

Lemma time_to_schwarzschild_more_fuel_witness :
  time_to_schwarzschild 100 [6e10] [-1e10] 1 4 1e-7 0 1 1 = Ok 6.
Proof.
  apply (time_to_schwarzschild_more_fuel 2 100); [lia | exact fast_flight_time].
Defined.

Lemma loop_body_zero_tol (alpha A B : R) (s : loop_state) :
  0 < B -> 1e-7 <= norm (st_r s) ->
  exists dt',
    loop_body 0 alpha A B s
    = Ok (LoopState (st_r s) (st_v s) dt' (st_t s) (st_i s), false).
Proof.
  intros HB Hr.
  destruct (rk4_step_defined (st_r s) (st_v s) (st_dt s) alpha A B HB)
    as (ra & va & Ha & _).
  destruct (rk4_step_defined ra va (st_dt s) alpha A B HB)
    as (r1 & v1 & H1 & _).
  destruct (rk4_step_defined (st_r s) (st_v s) (2 * st_dt s) alpha A B HB)
    as (r2 & v2 & H2 & _).
  rewrite (loop_body_unfold _ _ _ _ _ _ _ _ _ _ _ Ha H1 H2).
  cbv zeta.
  assert (Hrho : rho_of (st_dt s) 0 r1 r2 = 0)
    by (unfold rho_of, Rdiv; ring).
  rewrite Hrho.
  destruct (Rge_dec 0 1) as [Hge|_]; [lra|].
  cbn [st_r st_v st_dt st_t st_i].
  destruct (Rlt_dec (norm (st_r s)) 1e-7) as [Hlt|_]; [lra|].
  eexists. reflexivity.
Qed.

Lemma adaptive_loop_zero_tol (fuel : nat) (budget : Z) (alpha A B : R)
    (n : nat) (s : loop_state) :
  0 < B -> 1e-7 <= norm (st_r s) -> (st_i s < budget)%Z ->
  adaptive_loop fuel budget 0 alpha A B n s = Fail OutOfFuel.
Proof.
  intros HB. revert n s.
  induction fuel as [|fuel IH]; intros n s Hr Hi; [reflexivity|].
  destruct (loop_body_zero_tol alpha A B s HB Hr) as [dt' Hbody].
  rewrite (adaptive_loop_continue _ _ _ _ _ _ _ _ _ Hi Hbody).
  apply IH; assumption.
Qed.

(** With [tol = 0] no step is ever accepted: a call that starts outside
    the threshold radius with a positive budget never returns, for
    [B > 0] and [r0], [v0] of the same length: every amount of fuel runs
    out.  The budget is positive for [2 <= int(tf/dt)]; the bound
    [2^62] keeps the quotient where its conversion to a 64-bit integer
    is exact, and rounding the quotient cannot take it below [2]. *)
Theorem zero_tolerance_never_returns (fuel : nat) (r0 v0 : vec)
    (dt tf alpha A B : R) (n : Z) :
  0 < B -> length r0 = length v0 -> 1e-7 <= norm r0 ->
  num_steps tf dt = Ok n -> (2 <= n < 2 ^ 62)%Z ->
  time_to_schwarzschild fuel r0 v0 dt tf 0 alpha A B = Fail OutOfFuel.
Proof.
  intros HB _ Hr Hn [Hbudget _].
  unfold time_to_schwarzschild, run_to_schwarzschild.
  rewrite Hn. cbn [bind].
  rewrite adaptive_loop_zero_tol; [reflexivity | exact HB | exact Hr |].
  cbn [init_state st_i].
  assert (1 <= n / 2)%Z by (apply Z.div_le_lower_bound; lia). lia.
Qed.

Lemma zero_tolerance_never_returns_witness :
  time_to_schwarzschild 1000 [1] [0] 1 4 0 0 1 1 = Fail OutOfFuel.
Proof.
  apply (zero_tolerance_never_returns 1000 [1] [0] 1 4 0 1 1 4).
  - lra.
  - reflexivity.
  - rewrite norm_singleton, Rabs_R1. lra.
  - exact num_steps_4_1.
  - lia.
Defined.

Lemma pow_quarter_pos (rho : R) : 0 < rho -> 0 < pow_quarter rho.
Proof.
  intros H. unfold pow_quarter. apply sqrt_lt_R0, sqrt_lt_R0, H.
Qed.

(** What the loop maintains from a call with [0 < dt] and [0 < tol]:
    the step size stays positive; as long as no step is accepted the
    position is the initial one and no time has passed; once a step is
    accepted the accumulated time is positive. *)
Lemma loop_body_positive (r0 : vec) (tol alpha A B : R) (s s' : loop_state)
    (crossed : bool) :
  0 < tol ->
  0 < st_dt s ->
  (st_i s = 0%Z -> st_r s = r0 /\ st_t s = 0) ->
  (0 < st_i s)%Z \/ st_i s = 0%Z ->
  ((0 < st_i s)%Z -> 0 < st_t s) ->
  loop_body tol alpha A B s = Ok (s', crossed) ->
  0 < st_dt s' /\
  (st_i s' = 0%Z -> st_r s' = r0 /\ st_t s' = 0) /\
  ((0 < st_i s')%Z \/ st_i s' = 0%Z) /\
  ((0 < st_i s')%Z -> 0 < st_t s').
Proof.
  intros Htol Hdt H0 Hi Hpos Hbody.
  destruct (loop_body_inv _ _ _ _ _ _ _ Hbody)
    as (ra & va & r1 & v1 & r2 & v2 & Ha & H1 & H2).
  rewrite (loop_body_unfold _ _ _ _ _ _ _ _ _ _ _ Ha H1 H2) in Hbody.
  cbv zeta in Hbody. injection Hbody as Hs _. rewrite <- Hs. clear Hs.
  set (rho := rho_of (st_dt s) tol r1 r2).
  assert (Hrho : 0 < rho).
  { unfold rho, rho_of. pose proof (floored_norm_pos r1 r2).
    apply Rmult_lt_0_compat; [| apply Rinv_0_lt_compat; assumption].
    apply Rmult_lt_0_compat; lra. }
  pose proof (pow_quarter_pos rho Hrho) as Hpq.
  assert (Hmin : 0 < py_min (st_dt s * pow_quarter rho) (2 * st_dt s)).
  { rewrite py_min_Rmin. apply Rmin_glb_lt; [apply Rmult_lt_0_compat |]; lra. }
  destruct (Rge_dec rho 1) as [Hacc|Hrej]; cbn [st_i st_dt st_t st_r].
  - split; [exact Hmin | split; [lia | split; [lia|]]].
    intros _. destruct Hi as [Hi | Hi].
    + specialize (Hpos Hi). lra.
    + destruct (H0 Hi) as [_ Ht]. lra.
  - split; [exact Hmin | split; [exact H0 | split; [exact Hi | exact Hpos]]].
Qed.

Lemma adaptive_loop_positive (fuel : nat) (budget : Z) (r0 : vec)
    (tol alpha A B : R) (n : nat) (s : loop_state) (out : run) :
  0 < tol ->
  0 < st_dt s ->
  (st_i s = 0%Z -> st_r s = r0 /\ st_t s = 0) ->
  (0 < st_i s)%Z \/ st_i s = 0%Z ->
  ((0 < st_i s)%Z -> 0 < st_t s) ->
  adaptive_loop fuel budget tol alpha A B n s = Ok out ->
  0 < st_dt (run_state out) /\
  (st_i (run_state out) = 0%Z ->
   st_r (run_state out) = r0 /\ st_t (run_state out) = 0) /\
  ((0 < st_i (run_state out))%Z -> 0 < st_t (run_state out)).
Proof.
  intros Htol. revert n s.
  induction fuel as [|fuel IH]; intros n s Hdt H0 Hi Hpos Hrun.
  - discriminate.
  - simpl in Hrun. destruct (st_i s <? budget)%Z.
    + apply bind_Ok_inv in Hrun as ([s' c] & Hbody & Hrun).
      destruct (loop_body_positive r0 _ _ _ _ _ _ _ Htol Hdt H0 Hi Hpos Hbody)
        as (Hdt' & H0' & Hi' & Hpos').
      destruct c.
      * injection Hrun as <-. cbn [run_state]. auto.
      * eapply IH; eassumption.
    + injection Hrun as <-. cbn [run_state]. auto.
Qed.

(** A crossing time of [0]: for [0 < dt] and [0 < tol], when the
    threshold test ends the run, either a step was accepted and the
    returned time is positive, or no step was accepted, the returned
    time is [0] and the particle started inside the threshold radius. *)
Theorem zero_crossing_time_means_start_inside (fuel : nat) (r0 v0 : vec)
    (dt tf tol alpha A B : R) (out : run) :
  0 < dt -> 0 < tol ->
  run_to_schwarzschild fuel r0 v0 dt tf tol alpha A B = Ok out ->
  run_exit out = Crossed ->
  time_to_schwarzschild fuel r0 v0 dt tf tol alpha A B
    = Ok (st_t (run_state out)) /\
  ((0 < st_i (run_state out))%Z /\ 0 < st_t (run_state out) \/
   st_i (run_state out) = 0%Z /\ st_t (run_state out) = 0 /\
   norm r0 < 1e-7).
Proof.
  intros Hdt Htol Hrun Hexit.
  split.
  { unfold time_to_schwarzschild. rewrite Hrun. cbn [bind].
    rewrite Hexit. reflexivity. }
  pose proof Hrun as Hloop. unfold run_to_schwarzschild in Hloop.
  destruct (num_steps tf dt) as [n|e]; [| discriminate].
  cbn [bind] in Hloop.
  assert (Hinit : (0 <= st_i (init_state r0 v0 dt) <= Z.max 0 (n / 2))%Z)
    by (cbn [init_state st_i]; lia).
  destruct (adaptive_loop_counter _ _ _ _ _ _ _ _ _ Hinit Hloop)
    as [Hcount Hcross].
  rewrite Hexit in Hcross.
  assert (Hpos0 : (0 < st_i (init_state r0 v0 dt))%Z ->
                  0 < st_t (init_state r0 v0 dt))
    by (cbn [init_state st_i]; lia).
  destruct (adaptive_loop_positive fuel (n / 2) r0 tol alpha A B 0
              (init_state r0 v0 dt) out Htol Hdt
              (fun _ => conj eq_refl eq_refl) (or_intror eq_refl)
              Hpos0 Hloop)
    as (_ & H0 & Hpos).
  destruct (Z.eq_dec (st_i (run_state out)) 0%Z) as [Hz|Hnz].
  - right. destruct (H0 Hz) as [Hr Ht]. rewrite Hr in Hcross. auto.
  - left. assert (0 < st_i (run_state out))%Z by lia. auto.
Qed.

Lemma zero_crossing_time_means_start_inside_witness :
  exists out,
    run_to_schwarzschild 2 [6e10] [-1e10] 1 4 1e-7 0 1 1 = Ok out /\
    time_to_schwarzschild 2 [6e10] [-1e10] 1 4 1e-7 0 1 1
      = Ok (st_t (run_state out)).
Proof.
  destruct fast_flight_run as (s' & Hrun & _).
  exists (Run Crossed s' 2). split; [exact Hrun|].
  apply (zero_crossing_time_means_start_inside 2 [6e10] [-1e10] 1 4 1e-7
           0 1 1 (Run Crossed s' 2)); [lra | lra | exact Hrun | reflexivity].
Defined.

(** * Further properties of the sweep *)

Lemma length_flat_map_uniform {A B : Type} (f : A -> list B) (l : list A)
    (m : nat) :
  (forall y, length (f y) = m) -> length (flat_map f l) = (length l * m)%nat.
Proof.
  intros Hf. induction l as [|a l IH]; simpl; [reflexivity|].
  rewrite length_app, Hf, IH. reflexivity.
Qed.

Lemma lookup_flat_map_uniform {A B : Type} (f : A -> list B) (l : list A)
    (m i j : nat) (x : A) :
  (forall y, length (f y) = m) ->
  l !! i = Some x -> (j < m)%nat ->
  flat_map f l !! (i * m + j)%nat = f x !! j.
Proof.
  intros Hf. revert i. induction l as [|a l IH]; intros i Hi Hj.
  - discriminate.
  - simpl. destruct i as [|i]; simpl in Hi.
    + injection Hi as ->. simpl. apply lookup_app_l. rewrite Hf. exact Hj.
    + rewrite lookup_app_r by (rewrite Hf; lia).
      rewrite Hf. replace (S i * m + j - m)%nat with (i * m + j)%nat by lia.
      apply IH; assumption.
Qed.

Lemma length_all_params (NA NB NV : nat) :
  length (all_params NA NB NV) = (NA * NB * NV)%nat.
Proof.
  unfold all_params.
  rewrite (length_flat_map_uniform _ _ (NB * NV)).
  - rewrite length_seq. lia.
  - intros i. rewrite (length_flat_map_uniform _ _ NV).
    + rewrite length_seq. reflexivity.
    + intros j. rewrite length_map, length_seq. reflexivity.
Qed.

(** The index list has [N_A * N_B * N_V] entries in row-major order:
    [(i, j, k)] is at position [(i * N_B + j) * N_V + k]. *)
Theorem all_params_row_major (NA NB NV : nat) :
  length (all_params NA NB NV) = (NA * NB * NV)%nat /\
  forall i j k, (i < NA)%nat -> (j < NB)%nat -> (k < NV)%nat ->
    all_params NA NB NV !! ((i * NB + j) * NV + k)%nat = Some (i, j, k).
Proof.
  split; [apply length_all_params|].
  intros i j k Hi Hj Hk. unfold all_params.
  replace ((i * NB + j) * NV + k)%nat
    with (i * (NB * NV) + (j * NV + k))%nat by lia.
  rewrite (lookup_flat_map_uniform _ _ (NB * NV) i (j * NV + k) i).
  - rewrite (lookup_flat_map_uniform _ _ NV j k j).
    + change (map ?f ?l) with (f <$> l).
      rewrite list_lookup_fmap, lookup_seq_lt by exact Hk. reflexivity.
    + intros j'. rewrite length_map, length_seq. reflexivity.
    + apply lookup_seq_lt. exact Hj.
    + exact Hk.
  - intros i'. rewrite (length_flat_map_uniform _ _ NV).
    + rewrite length_seq. reflexivity.
    + intros j'. rewrite length_map, length_seq. reflexivity.
  - apply lookup_seq_lt. exact Hi.
  - nia.
Qed.

Lemma lookup_range_step (fuel start stop step q : nat) :
  (0 < step)%nat -> (stop <= fuel + start)%nat ->
  range_step fuel start stop step !! q
  = if (start + q * step <? stop)%nat then Some (start + q * step)%nat
    else None.
Proof.
  intros Hstep. revert start q.
  induction fuel as [|fuel IH]; intros start q Hfuel; simpl.
  - destruct (start + q * step <? stop)%nat eqn:Hlt; [| reflexivity].
    apply Nat.ltb_lt in Hlt. lia.
  - destruct (start <? stop)%nat eqn:Hs.
    + destruct q as [|q]; simpl.
      * rewrite Nat.add_0_r, Hs. reflexivity.
      * rewrite IH by lia.
        replace (start + step + q * step)%nat
          with (start + (step + q * step))%nat by lia.
        reflexivity.
    + apply Nat.ltb_ge in Hs.
      destruct (start + q * step <? stop)%nat eqn:Hlt; [| reflexivity].
      apply Nat.ltb_lt in Hlt. lia.
Qed.

(** The chunks are contiguous slices of the index list: chunk [b] holds
    the [m] entries from position [b * m] on, [m] being [chunk_size], or
    [1] for [chunk_size <= 1]; no chunk is empty, and every chunk but the
    last is full. *)
Theorem make_chunks_slices (chunk_size : Z) (params : list cell)
    (b : nat) (chunk : list cell) :
  make_chunks chunk_size params !! b = Some chunk ->
  let m := Z.to_nat (Z.max 1 chunk_size) in
  chunk = take m (drop (b * m) params) /\
  (0 < length chunk <= m)%nat /\
  (b * m < length params)%nat /\
  ((S b < length (make_chunks chunk_size params))%nat -> length chunk = m).
Proof.
  intros Hb m.
  assert (Hslice : chunk = take m (drop (b * m) params) /\
                   (b * m < length params)%nat /\
                   (forall b', (b' < length (make_chunks chunk_size params))%nat
                               -> (b' * m < length params)%nat)).
  { unfold make_chunks in *. destruct (chunk_size <=? 1)%Z eqn:Hcs.
    - apply Z.leb_le in Hcs.
      assert (Hm : m = 1%nat) by (unfold m; lia). rewrite Hm.
      change (map ?f params) with (f <$> params) in *.
      rewrite list_lookup_fmap in Hb.
      destruct (params !! b) as [p|] eqn:Hp; [| discriminate].
      injection Hb as <-. rewrite Nat.mul_1_r. split; [| split].
      + rewrite (drop_S _ _ _ Hp). reflexivity.
      + eapply lookup_lt_Some; exact Hp.
      + intros b'. rewrite length_fmap. lia.
    - apply Z.leb_gt in Hcs.
      assert (Hm : m = Z.to_nat chunk_size) by (unfold m; lia).
      rewrite <- Hm in *.
      change (map ?f ?l) with (f <$> l) in *.
      rewrite list_lookup_fmap in Hb.
      assert (Hlook : forall q,
                range_step (length params) 0 (length params) m !! q
                = if (q * m <? length params)%nat then Some (q * m)%nat
                  else None).
      { intros q. rewrite lookup_range_step by lia. reflexivity. }
      rewrite Hlook in Hb.
      destruct (b * m <? length params)%nat eqn:Hlt; [| discriminate].
      injection Hb as <-. apply Nat.ltb_lt in Hlt.
      split; [reflexivity | split; [exact Hlt|]].
      intros b' Hb'. rewrite length_fmap in Hb'.
      apply lookup_lt_is_Some_2 in Hb' as [k Hk].
      rewrite Hlook in Hk.
      destruct (b' * m <? length params)%nat eqn:Hlt'; [| discriminate].
      apply Nat.ltb_lt in Hlt'. exact Hlt'. }
  destruct Hslice as (-> & Hlt & Hall).
  assert (Hm : (0 < m)%nat) by (unfold m; lia).
  split; [reflexivity | split; [| split; [exact Hlt|]]].
  - rewrite length_take, length_drop. lia.
  - intros Hnext. specialize (Hall (S b) Hnext).
    rewrite length_take, length_drop. simpl in Hall. lia.
Qed.

Lemma make_chunks_slices_witness :
  make_chunks 2 (all_params 1 3 2) !! 1%nat
    = Some [(0, 1, 0); (0, 1, 1)]%nat /\
  [(0, 1, 0); (0, 1, 1)]%nat
    = take (Z.to_nat (Z.max 1 2)) (drop (1 * Z.to_nat (Z.max 1 2))
                                     (all_params 1 3 2)).
Proof.
  split; [reflexivity|].
  exact (proj1 (make_chunks_slices 2 (all_params 1 3 2) 1
                  [(0, 1, 0); (0, 1, 1)]%nat eq_refl)).
Defined.

Section SweepFailures.

Variable sim : cell -> M R.

Lemma sequential_fill_result (it log : list cell) (T : tensor) :
  (exists T', outcome (sequential_fill sim it log T) = Ok T' /\
              simulated (sequential_fill sim it log T) = log ++ it) \/
  (exists e done c rest,
     it = done ++ c :: rest /\
     outcome (sequential_fill sim it log T) = Fail e /\
     simulated (sequential_fill sim it log T) = log ++ done ++ [c] /\
     sim c = Fail e /\
     forall c', c' ∈ done -> exists t, sim c' = Ok t).
Proof.
  revert log T. induction it as [|c it IH]; intros log T; simpl.
  - left. eexists. split; [reflexivity | rewrite app_nil_r; reflexivity].
  - destruct (sim c) as [t|e] eqn:Hc.
    + destruct (IH (log ++ [c]) (tensor_set T c t))
        as [(T' & Hout & Hsim) | (e & done & c1 & rest & -> & Hout & Hsim & Hc1 & Hdone)].
      * left. exists T'. split; [exact Hout|].
        rewrite Hsim, <- app_assoc. reflexivity.
      * right. exists e, (c :: done), c1, rest.
        split; [reflexivity | split; [exact Hout | split; [| split]]].
        -- rewrite Hsim, <- app_assoc. reflexivity.
        -- exact Hc1.
        -- intros c' Hc'. apply elem_of_cons in Hc' as [-> | Hc'];
             [eauto | apply Hdone, Hc'].
    + right. exists e, [], c, it. simpl.
      split; [reflexivity | split; [reflexivity | split; [reflexivity |
        split; [exact Hc|]]]].
      intros c' Hc'. apply elem_of_nil in Hc'. contradiction.
Qed.

Lemma eval_cells_failure (cs : list cell) (e : failure) :
  eval_cells sim cs = Fail e -> exists c, c ∈ cs /\ sim c = Fail e.
Proof.
  induction cs as [|c cs IH]; simpl; intros H; [discriminate|].
  apply bind_Fail_inv in H as [H | (t & _ & H)].
  - exists c. split; [left | exact H].
  - apply bind_Fail_inv in H as [H | (rest & _ & H)]; [| discriminate].
    destruct (IH H) as (c' & Hin & Hc'). exists c'. split; [right|]; assumption.
Qed.

Lemma process_futures_failure (chunks : list (list cell))
    (arrival : list nat) (T : tensor) (e : failure) :
  process_futures
    (map (fun chunk => process_chunk_worker sim chunk [] []) chunks)
    arrival T = Fail e ->
  exists c, c ∈ concat chunks /\ sim c = Fail e.
Proof.
  revert T. induction arrival as [|n arrival IH]; intros T H; simpl in H.
  - discriminate.
  - destruct (map (fun chunk => process_chunk_worker sim chunk [] []) chunks
                !! n) as [future|] eqn:Hf; [| eapply IH; exact H].
    apply bind_Fail_inv in H as [H | (o & _ & H)]; [| eapply IH; exact H].
    change (map ?f chunks) with (f <$> chunks) in Hf.
    rewrite list_lookup_fmap in Hf.
    destruct (chunks !! n) as [chunk|] eqn:Hc; [| discriminate].
    injection Hf as <-. rewrite process_chunk_worker_outcome in H.
    apply bind_Fail_inv in H as [H | (o & _ & H)]; [| discriminate].
    destruct (eval_cells_failure _ _ H) as (c & Hin & Hsim).
    exists c. split; [| exact Hsim].
    apply list_elem_of_In, in_concat. exists chunk.
    split; apply list_elem_of_In;
      [eapply list_elem_of_lookup_2; exact Hc | exact Hin].
Qed.

(** A sweep fails only with the error of one of its cells, or, on the
    parallel path, with the error on the backend. *)
Lemma sweep_body_failure (NA NB NV : nat) (parallel : bool)
    (backend : string) (chunk_size : Z) (show_progress : bool)
    (arrival : list nat) (e : failure) :
  outcome (sweep_body sim NA NB NV parallel backend chunk_size
             show_progress arrival) = Fail e ->
  e = ValueError (msg_backend backend) \/
  exists c, c ∈ all_params NA NB NV /\ sim c = Fail e.
Proof.
  destruct parallel.
  - unfold sweep_body. simpl.
    assert (Hpool : outcome (run_pool sim
                      (make_chunks chunk_size (all_params NA NB NV))
                      arrival (zeros NA NB NV)) = Fail e ->
                    exists c, c ∈ all_params NA NB NV /\ sim c = Fail e).
    { unfold run_pool. cbn [outcome]. intros H.
      apply process_futures_failure in H.
      rewrite make_chunks_concat in H. exact H. }
    destruct (String.eqb backend "thread"); [intros H; right; auto|].
    destruct (String.eqb backend "process"); [intros H; right; auto|].
    destruct (String.eqb backend "multiprocessing"); [intros H; right; auto|].
    cbn [outcome]. intros H. injection H as <-. left. reflexivity.
  - rewrite sweep_body_sequential, sequential_fill_outcome. intros H.
    apply bind_Fail_inv in H as [H | (o & _ & H)]; [| discriminate].
    right. apply eval_cells_failure, H.
Qed.


End SweepFailures.

Lemma sequential_fill_stops (sim : cell -> M R) (done rest : list cell)
    (c : cell) (e : failure) (log : list cell) (T : tensor) :
  (forall c', c' ∈ done -> exists t, sim c' = Ok t) ->
  sim c = Fail e ->
  sequential_fill sim (done ++ c :: rest) log T
  = Traced (log ++ done ++ [c]) (Fail e).
Proof.
  revert log T. induction done as [|d done IH]; intros log T Hdone Hc.
  - cbn [app sequential_fill]. rewrite Hc. reflexivity.
  - cbn [app sequential_fill].
    destruct (Hdone d) as [t Ht]; [apply elem_of_cons; left; reflexivity|].
    rewrite Ht, IH; [| | exact Hc].
    + rewrite <- app_assoc. reflexivity.
    + intros c' Hc'. apply Hdone, elem_of_cons. right. exact Hc'.
Qed.

Lemma origin_run_returns :
  time_to_schwarzschild 1 [0] [0] 1 2 0 0 1 1 = Ok 0.
Proof.
  assert (Hn : num_steps 2 1 = Ok 2%Z).
  { rewrite num_steps_defined by lra. f_equal.
    apply int_trunc_bounds; simpl; lra. }
  unfold time_to_schwarzschild, run_to_schwarzschild.
  rewrite Hn. cbn [bind].
  rewrite (adaptive_loop_crossed 0 (2 / 2) 0 0 1 1 0
             (init_state [0] [0] 1) _ eq_refl loop_body_rest_origin_tol0).
  reflexivity.
Qed.

Lemma origin_run_raises :
  time_to_schwarzschild 1 [0] [0] 1 2 0 0 1 0 = Fail ZeroDivisionError.
Proof.
  assert (Hn : num_steps 2 1 = Ok 2%Z).
  { rewrite num_steps_defined by lra. f_equal.
    apply int_trunc_bounds; simpl; lra. }
  assert (Hv : vel_dispersion [0] 1 0 = Fail ZeroDivisionError).
  { unfold vel_dispersion. rewrite norm_singleton, Rabs_R0.
    destruct (Req_dec_T (0 ^ 3 + 0) 0) as [_|Hne]; [reflexivity|].
    exfalso. apply Hne. simpl. lra. }
  unfold time_to_schwarzschild, run_to_schwarzschild.
  rewrite Hn. cbn [bind].
  assert (Hbody : loop_body 0 0 1 0 (init_state [0] [0] 1)
                  = Fail ZeroDivisionError).
  { unfold loop_body, rk4_step, init_state. cbn [st_r st_v st_dt].
    rewrite Hv. reflexivity. }
  change (2 / 2)%Z with 1%Z.
  cbn [adaptive_loop]. unfold init_state at 1. cbn [st_i].
  change (0 <? 1)%Z with true. cbv iota.
  rewrite Hbody. reflexivity.
Qed.

(** The sequential sweep stops at the first cell whose simulation
    raises: when the cells before it, in row-major order, return and its
    own simulation raises, the sweep raises that error, and the cells
    simulated are those up to it, each once, the later ones not at all.
    When every simulation returns, the sweep returns and every cell was
    simulated once, in row-major order. *)
Theorem sequential_sweep_stops_at_first_failure (fuel : nat)
    (arrival : list nat) (r0 : vec) (v0_values : option ndarray)
    (v0s : list vec) (dt tf tol alpha : R)
    (A_values B_values : option (list R)) (backend : string)
    (chunk_size : Z) (show_progress : bool) :
  validate_v0 v0_values = Ok v0s ->
  let A := match A_values with None => [1] | Some a => a end in
  let B := match B_values with None => [1] | Some b => b end in
  let params := all_params (length A) (length B) (length v0s) in
  let sim := simulate fuel r0 v0s dt tf tol alpha A B in
  let res := parameter_sweep fuel arrival r0 v0_values dt tf tol alpha
               A_values B_values false backend chunk_size show_progress in
  (forall e done c rest,
     params = done ++ c :: rest ->
     (forall c', c' ∈ done -> exists t, sim c' = Ok t) ->
     sim c = Fail e ->
     outcome res = Fail e /\ simulated res = done ++ [c]) /\
  ((forall c, c ∈ params -> exists t, sim c = Ok t) ->
   exists T, outcome res = Ok T /\ simulated res = params).
Proof.
  intros Hv A B params sim res. unfold res.
  rewrite (parameter_sweep_valid _ _ _ _ _ _ _ _ _ _ _ _ _ _ _ Hv).
  cbv zeta. rewrite sweep_body_sequential.
  fold A B. fold params. fold sim. split.
  - intros e done c rest Hp Hdone Hc. rewrite Hp.
    rewrite (sequential_fill_stops sim done rest c e [] _ Hdone Hc).
    split; reflexivity.
  - intros Hall.
    destruct (sequential_fill_result sim params []
                (zeros (length A) (length B) (length v0s)))
      as [(T & Hout & Hsim) | (e & done & c & rest & Hp & _ & _ & Hc & _)].
    + exists T. split; [exact Hout | exact Hsim].
    + exfalso. destruct (Hall c) as [t Ht]; [| congruence].
      rewrite Hp. apply elem_of_app. right. apply elem_of_cons. left.
      reflexivity.
Qed.

Lemma sequential_sweep_stops_at_first_failure_witness :
  outcome (parameter_sweep 1 [] [0] (Some (Arr2 [[0]])) 1 2 0 0
             (Some [1]) (Some [1; 0; 1]) false "thread" 8 true)
    = Fail ZeroDivisionError /\
  simulated (parameter_sweep 1 [] [0] (Some (Arr2 [[0]])) 1 2 0 0
               (Some [1]) (Some [1; 0; 1]) false "thread" 8 true)
    = [(0, 0, 0); (0, 1, 0)]%nat.
Proof.
  refine (proj1 (sequential_sweep_stops_at_first_failure 1 [] [0]
                   (Some (Arr2 [[0]])) [[0]] 1 2 0 0 (Some [1])
                   (Some [1; 0; 1]) "thread" 8 true eq_refl)
            ZeroDivisionError [(0, 0, 0)%nat] (0, 1, 0)%nat
            [(0, 2, 0)%nat] eq_refl _ _).
  - intros c' Hc'. apply list_elem_of_singleton in Hc' as ->.
    exists 0. exact origin_run_returns.
  - exact origin_run_raises.
Defined.

(** The array a sweep returns has the shape
    [(len(A_values), len(B_values), len(v0_values))], on the sequential
    path and on the parallel one. *)
Theorem parameter_sweep_shape (fuel : nat) (arrival : list nat) (r0 : vec)
    (v0_values : option ndarray) (v0s : list vec) (dt tf tol alpha : R)
    (A_values B_values : option (list R)) (parallel : bool)
    (backend : string) (chunk_size : Z) (show_progress : bool)
    (T : tensor) :
  validate_v0 v0_values = Ok v0s ->
  outcome (parameter_sweep fuel arrival r0 v0_values dt tf tol alpha
             A_values B_values parallel backend chunk_size show_progress)
    = Ok T ->
  has_shape T
    (length (match A_values with None => [1] | Some a => a end))
    (length (match B_values with None => [1] | Some b => b end))
    (length v0s).
Proof.
  intros Hv H.
  rewrite (parameter_sweep_valid _ _ _ _ _ _ _ _ _ _ _ _ _ _ _ Hv) in H.
  cbv zeta in H. apply sweep_body_shape in H. exact H.
Qed.

Lemma parameter_sweep_shape_witness :
  has_shape [[[3]]] 1 1 1.
Proof.
  apply (parameter_sweep_shape 1 [] [0] (Some (Arr2 [[0]])) [[0]]
           2 3 1e-7 0 None None false "gpu" 8 true [[[3]]] eq_refl).
  rewrite sequential_single_cell. reflexivity.
Defined.






Lemma time_to_schwarzschild_failure (fuel : nat) (r0 v0 : vec)
    (dt tf tol alpha A B : R) (e : failure) :
  time_to_schwarzschild fuel r0 v0 dt tf tol alpha A B = Fail e ->
  e = ZeroDivisionError \/ e = OutOfFuel.
Proof.
  intros H. unfold time_to_schwarzschild, run_to_schwarzschild in H.
  apply bind_Fail_inv in H as [H | (out & _ & H)];
    [| destruct (run_exit out); discriminate].
  apply bind_Fail_inv in H as [H | (n & _ & H)].
  - unfold num_steps in H. destruct (Req_dec_T dt 0); [| discriminate].
    injection H as <-. left. reflexivity.
  - apply adaptive_loop_failure in H as [-> | [-> _]]; auto.
Qed.

Lemma simulate_in_range (fuel : nat) (r0 : vec) (v0s : list vec)
    (dt tf tol alpha : R) (A B : list R) (c : cell) :
  c ∈ all_params (length A) (length B) (length v0s) ->
  exists v0_k A_i B_j,
    v0s !! c.2 = Some v0_k /\ A !! c.1.1 = Some A_i /\
    B !! c.1.2 = Some B_j /\
    simulate fuel r0 v0s dt tf tol alpha A B c
    = time_to_schwarzschild fuel r0 v0_k dt tf tol alpha A_i B_j.
Proof.
  intros Hc. apply elem_of_all_params in Hc as (Hi & Hj & Hk).
  destruct c as [[i j] k]. cbn [fst snd] in *.
  destruct (lookup_lt_is_Some_2 v0s k Hk) as [v0_k Hv].
  destruct (lookup_lt_is_Some_2 A i Hi) as [A_i HA].
  destruct (lookup_lt_is_Some_2 B j Hj) as [B_j HB].
  exists v0_k, A_i, B_j. unfold simulate. rewrite Hv, HA, HB. auto.
Qed.

(** [parameter_sweep] never raises an [IndexError]: every index it
    builds, on the sequential path and in the workers, is in the range
    of [A_values], [B_values] and [v0_values]. *)
Theorem parameter_sweep_indices_in_range (fuel : nat) (arrival : list nat)
    (r0 : vec) (v0_values : option ndarray) (dt tf tol alpha : R)
    (A_values B_values : option (list R)) (parallel : bool)
    (backend : string) (chunk_size : Z) (show_progress : bool) :
  outcome (parameter_sweep fuel arrival r0 v0_values dt tf tol alpha
             A_values B_values parallel backend chunk_size show_progress)
    <> Fail IndexError.
Proof.
  intros H.
  destruct (validate_v0 v0_values) as [v0s|e'] eqn:Hv.
  - rewrite (parameter_sweep_valid _ _ _ _ _ _ _ _ _ _ _ _ _ _ _ Hv) in H.
    cbv zeta in H.
    apply sweep_body_failure in H as [H | (c & Hc & Hsim)]; [discriminate|].
    destruct (simulate_in_range fuel r0 v0s dt tf tol alpha _ _ c Hc)
      as (v0_k & A_i & B_j & _ & _ & _ & Heq).
    rewrite Heq in Hsim.
    apply time_to_schwarzschild_failure in Hsim as [Hsim | Hsim];
      discriminate.
  - rewrite (parameter_sweep_invalid _ _ _ _ _ _ _ _ _ _ _ _ _ _ _ Hv) in H.
    cbn [outcome] in H. injection H as ->.
    apply validate_v0_failure in Hv as [msg Hmsg]. discriminate.
Qed.

(** The sweep over a grid whose runs have no budget: when
    [int(tf / dt) < 2] the sequential sweep returns, and every cell of
    the array it returns holds [tf]. *)
Theorem zero_budget_sweep_fills_tf (fuel : nat) (arrival : list nat)
    (r0 : vec) (v0_values : option ndarray) (v0s : list vec)
    (dt tf tol alpha : R) (A_values B_values : option (list R))
    (backend : string) (chunk_size : Z) (show_progress : bool) (n : Z) :
  validate_v0 v0_values = Ok v0s ->
  num_steps tf dt = Ok n -> (n < 2)%Z ->
  let A := match A_values with None => [1] | Some a => a end in
  let B := match B_values with None => [1] | Some b => b end in
  exists T,
    outcome (parameter_sweep (S fuel) arrival r0 v0_values dt tf tol alpha
               A_values B_values false backend chunk_size show_progress)
      = Ok T /\
    forall i j k,
      (i < length A)%nat -> (j < length B)%nat -> (k < length v0s)%nat ->
      tensor_get T (i, j, k) = Some tf.
Proof.
  intros Hv Hn Hlt A B.
  rewrite (parameter_sweep_valid _ _ _ _ _ _ _ _ _ _ _ _ _ _ _ Hv).
  cbv zeta. rewrite sweep_body_sequential. fold A B.
  set (sim := simulate (S fuel) r0 v0s dt tf tol alpha A B).
  assert (Hsim : forall c, c ∈ all_params (length A) (length B) (length v0s) ->
                           sim c = Ok tf).
  { intros c Hc.
    destruct (simulate_in_range (S fuel) r0 v0s dt tf tol alpha A B c Hc)
      as (v0_k & A_i & B_j & _ & _ & _ & Heq).
    unfold sim. rewrite Heq.
    apply (zero_budget_time _ _ _ _ _ _ _ _ _ _ Hn Hlt). }
  destruct (eval_cells_total sim
              (all_params (length A) (length B) (length v0s)))
    as [o Ho]; [intros c Hc; rewrite (Hsim c Hc); eauto|].
  assert (Hout : outcome (sequential_fill sim
                   (all_params (length A) (length B) (length v0s)) []
                   (zeros (length A) (length B) (length v0s)))
                 = Ok (write_chunk
                         (zeros (length A) (length B) (length v0s)) o)).
  { rewrite sequential_fill_outcome, Ho. reflexivity. }
  eexists. split; [exact Hout|].
  intros i j k Hi Hj Hk.
  assert (Hc : (i, j, k) ∈ all_params (length A) (length B) (length v0s))
    by (apply elem_of_all_params; cbn [fst snd]; auto).
  destruct (sequential_fill_cells _ _ _ _ _ Hout (i, j, k) Hc)
    as (t & Ht & Hget).
  rewrite (Hsim _ Hc) in Ht. injection Ht as <-. exact Hget.
Qed.

Lemma zero_budget_sweep_fills_tf_witness :
  exists T,
    outcome (parameter_sweep 1 [] [0; 1; 0]
               (Some (Arr2 [[0; 0; 0]; [0; 0.5; 0]])) 2 3 1e-7 0
               (Some [0; 1]) None false "thread" 8 true) = Ok T /\
    tensor_get T (1, 0, 1)%nat = Some 3.
Proof.
  destruct (zero_budget_sweep_fills_tf 0 [] [0; 1; 0]
              (Some (Arr2 [[0; 0; 0]; [0; 0.5; 0]]))
              [[0; 0; 0]; [0; 0.5; 0]] 2 3 1e-7 0 (Some [0; 1]) None
              "thread" 8 true 1 eq_refl num_steps_3_2 ltac:(lia))
    as (T & HT & Hcells).
  exists T. split; [exact HT|].
  apply Hcells; simpl; lia.
Defined.



(** * The window helper of [qdraw.py] *)

Lemma py_div_defined (a b : R) : b <> 0 -> py_div a b = Ok (a / b).
Proof.
  intros Hb. unfold py_div. destruct (Req_dec_T b 0); [contradiction | reflexivity].
Qed.

Lemma py_div_failure (a b : R) (e : failure) :
  py_div a b = Fail e -> e = ZeroDivisionError /\ b = 0.
Proof.
  unfold py_div. destruct (Req_dec_T b 0) as [Hb|Hb]; [| discriminate].
  intros H. injection H as <-. auto.
Qed.

(** [int(z + 0.5)] rounds a nonnegative [z] to a nearest integer. *)
Lemma int_trunc_rounds (z : R) :
  0 <= z ->
  z - 0.5 < IZR (int_trunc (z + 0.5)) <= z + 0.5.
Proof.
  intros Hz. unfold int_trunc.
  destruct (Rle_dec 0 (z + 0.5)) as [_|Hn]; [| lra].
  destruct (base_Int_part (z + 0.5)) as [Hle Hgt]. lra.
Qed.

Lemma scaled_pixels_defined (a b c : R) :
  0 <= a -> 0 <= b -> 0 < c ->
  exists p,
    scaled_pixels a b c = Ok p /\
    - (c / 2) <= p * c - a * b <= c / 2.
Proof.
  intros Ha Hb Hc. unfold scaled_pixels.
  rewrite py_div_defined by lra. cbn [bind].
  eexists. split; [reflexivity|].
  assert (Hq : 0 <= a * b / c).
  { apply Rmult_le_pos; [apply Rmult_le_pos; assumption|].
    left. apply Rinv_0_lt_compat, Hc. }
  pose proof (int_trunc_rounds (a * b / c) Hq) as [Hlo Hhi].
  set (p := IZR (int_trunc (a * b / c + 0.5))) in *.
  assert (Hab : a * b = a * b / c * c) by (field; lra).
  set (q := a * b / c) in *.
  rewrite Hab. nra.
Qed.

Lemma scaled_pixels_failure (a b c : R) (e : failure) :
  scaled_pixels a b c = Fail e -> e = ZeroDivisionError /\ c = 0.
Proof.
  unfold scaled_pixels. intros H.
  apply bind_Fail_inv in H as [H | (q & _ & H)]; [| discriminate].
  eapply py_div_failure; exact H.
Qed.

(** [limits] never changes a coordinate range it is given, and changes
    a given size only when all four arguments are given: then it
    recomputes one of the two sizes and keeps the other. *)
Theorem limits_keeps_given (w h : option R) (x y : option (R * R))
    (w' h' : R) (x' y' : R * R) :
  limits w h x y = Ok (w', h', x', y') ->
  (forall xv, x = Some xv -> x' = xv) /\
  (forall yv, y = Some yv -> y' = yv) /\
  (w = None \/ h = None \/ x = None \/ y = None ->
   (forall wv, w = Some wv -> w' = wv) /\
   (forall hv, h = Some hv -> h' = hv)) /\
  (forall wv hv, w = Some wv -> h = Some hv -> w' = wv \/ h' = hv).
Proof.
  intros H.
  destruct w as [wv|], h as [hv|], x as [xv|], y as [yv|];
    cbn [limits] in H; cbv zeta in H;
    try destruct (Rlt_dec _ _);
    repeat (apply bind_Ok_inv in H as (? & _ & H); cbv beta zeta in H);
    injection H as <- <- <- <-;
    (split; [intros ? [= <-]; reflexivity || idtac
            | split; [intros ? [= <-]; reflexivity || idtac
                     | split; [intros [?|[?|[?|?]]]; try discriminate;
                               split; intros ? [= <-]; reflexivity
                              | intros ? ? [= <-] [= <-]; auto]]]).
Qed.

Lemma limits_keeps_given_witness :
  limits None (Some 600) (Some (-2, 2)) None
    = Ok (600, 600, (-2, 2), (-2, 2)) /\
  ((-2, 2) : R * R) = (-2, 2).
Proof.
  split; [reflexivity|].
  exact (proj1 (limits_keeps_given None (Some 600) (Some (-2, 2)) None
                  600 600 (-2, 2) (-2, 2) eq_refl) (-2, 2) eq_refl).
Defined.

(** A [ZeroDivisionError] from [limits] has one of two causes: a size
    that is given as [0], or a range that is given with equal ends. *)
Theorem limits_zero_division_cause (w h : option R) (x y : option (R * R)) :
  limits w h x y = Fail ZeroDivisionError ->
  w = Some 0 \/ h = Some 0 \/
  (exists xv, x = Some xv /\ snd xv - fst xv = 0) \/
  (exists yv, y = Some yv /\ snd yv - fst yv = 0).
Proof.
  intros H.
  destruct w as [wv|], h as [hv|], x as [xv|], y as [yv|];
    cbn [limits] in H; cbv zeta in H;
    try destruct (Rlt_dec _ _);
    try discriminate;
    repeat (apply bind_Fail_inv in H as [H | (? & _ & H)];
            [| cbv beta zeta in H]);
    try discriminate;
    try (apply py_div_failure in H as [_ H]);
    try (apply scaled_pixels_failure in H as [_ H]);
    try subst;
    eauto 8.
Qed.

Lemma limits_zero_division_cause_witness :
  limits (Some 0) (Some 600) None None = Fail ZeroDivisionError /\
  (Some 0 = Some 0 \/ Some 600 = Some 0 \/
   (exists xv : R * R, None = Some xv /\ snd xv - fst xv = 0) \/
   (exists yv : R * R, None = Some yv /\ snd yv - fst yv = 0)).
Proof.
  assert (H : limits (Some 0) (Some 600) None None = Fail ZeroDivisionError).
  { cbn [limits]. unfold py_div.
    destruct (Req_dec_T 0 0) as [_|Hn]; [reflexivity | contradiction]. }
  split; [exact H|].
  exact (limits_zero_division_cause (Some 0) (Some 600) None None H).
Defined.

Lemma scaled_pixels_nonneg (a b c : R) :
  0 <= a -> 0 <= b -> 0 < c ->
  exists p,
    scaled_pixels a b c = Ok p /\ 0 <= p /\
    - (c / 2) <= p * c - a * b <= c / 2.
Proof.
  intros Ha Hb Hc.
  destruct (scaled_pixels_defined a b c Ha Hb Hc) as (p & Hp & Hbound).
  exists p. split; [exact Hp|]. split; [| exact Hbound].
  unfold scaled_pixels in Hp. rewrite py_div_defined in Hp by lra.
  cbn [bind] in Hp. injection Hp as <-.
  assert (Hq : 0 <= a * b / c).
  { apply Rmult_le_pos; [apply Rmult_le_pos; assumption|].
    left. apply Rinv_0_lt_compat, Hc. }
  unfold int_trunc. destruct (Rle_dec 0 (a * b / c + 0.5)) as [_|Hn]; [| lra].
  apply IZR_le.
  destruct (Z_lt_le_dec (Int_part (a * b / c + 0.5)) 0) as [Hneg|]; [| assumption].
  exfalso.
  destruct (base_Int_part (a * b / c + 0.5)) as [_ Hgt].
  assert (Hle : IZR (Int_part (a * b / c + 0.5)) <= -1).
  { apply IZR_le. lia. }
  lra.
Qed.

Lemma aspect_exact (w h dx dy : R) :
  0 < dx -> 0 < dy -> w * dy - h * dx = 0 ->
  Rabs (w * dy - h * dx) <= Rmax dx dy / 2.
Proof.
  intros Hdx Hdy ->. rewrite Rabs_R0.
  pose proof (Rmax_l dx dy). lra.
Qed.

Lemma aspect_round_width (p h dx dy : R) :
  - (dy / 2) <= p * dy - h * dx <= dy / 2 ->
  Rabs (p * dy - h * dx) <= Rmax dx dy / 2.
Proof.
  intros H. pose proof (Rmax_r dx dy).
  apply Rabs_le. lra.
Qed.

Lemma aspect_round_height (w p dx dy : R) :
  - (dx / 2) <= p * dx - w * dy <= dx / 2 ->
  Rabs (w * dy - p * dx) <= Rmax dx dy / 2.
Proof.
  intros H. pose proof (Rmax_l dx dy).
  apply Rabs_le. lra.
Qed.

Lemma scaled_range (lo hi a b : R) :
  lo < hi -> 0 < a -> 0 < b ->
  lo * a / b < hi * a / b /\
  b * (hi * a / b - lo * a / b) = a * (hi - lo).
Proof.
  intros Hr Ha Hb. split.
  - unfold Rdiv. apply Rmult_lt_compat_r; [apply Rinv_0_lt_compat, Hb|].
    apply Rmult_lt_compat_r; assumption.
  - field. lra.
Qed.

Lemma limits_positive_result (w h : option R) (x y : option (R * R)) :
  limits_args_positive w h x y ->
  exists w' h' x' y',
    limits w h x y = Ok (w', h', x', y') /\
    0 <= w' /\ 0 <= h' /\ fst x' < snd x' /\ fst y' < snd y' /\
    Rabs (w' * (snd y' - fst y') - h' * (snd x' - fst x'))
      <= Rmax (snd x' - fst x') (snd y' - fst y') / 2.
Proof.
  intros (Hw & Hh & Hx & Hy).
  destruct w as [wv|], h as [hv|], x as [[x0 x1]|], y as [[y0 y1]|];
    cbn [fst snd] in *; cbn [limits]; cbv zeta; cbn [fst snd];
    unfold DEFAULT_SCREENWIDTH, DEFAULT_SCREENHEIGHT,
      DEFAULT_XMIN, DEFAULT_XMAX, DEFAULT_YMIN, DEFAULT_YMAX.
  - (* w h x y *)
    destruct (Rlt_dec (x1 - x0) (y1 - y0)) as [Hlt|Hge].
    + destruct (scaled_pixels_nonneg hv (x1 - x0) (y1 - y0))
        as (p & -> & Hp & Hb); [lra .. |].
      cbn [bind]. do 4 eexists. split; [reflexivity|]. cbn [fst snd].
      repeat split; try lra. apply aspect_round_width, Hb.
    + destruct (scaled_pixels_nonneg wv (y1 - y0) (x1 - x0))
        as (p & -> & Hp & Hb); [lra .. |].
      cbn [bind]. do 4 eexists. split; [reflexivity|]. cbn [fst snd].
      repeat split; try lra. apply aspect_round_height, Hb.
  - (* w h x *)
    destruct (scaled_range x0 x1 hv wv Hx Hh Hw) as [Hr He].
    rewrite !py_div_defined by lra. cbn [bind].
    do 4 eexists. split; [reflexivity|]. cbn [fst snd].
    repeat split; try lra. apply aspect_exact; lra.
  - (* w h y *)
    destruct (scaled_range y0 y1 wv hv Hy Hw Hh) as [Hr He].
    rewrite !py_div_defined by lra. cbn [bind].
    do 4 eexists. split; [reflexivity|]. cbn [fst snd].
    repeat split; try lra. apply aspect_exact; lra.
  - (* w h *)
    destruct (scaled_range 0 1 hv wv ltac:(lra) Hh Hw) as [Hr He].
    rewrite !py_div_defined by lra. cbn [bind].
    do 4 eexists. split; [reflexivity|]. cbn [fst snd].
    repeat split; try lra. apply aspect_exact; lra.
  - (* w x y *)
    destruct (scaled_pixels_nonneg wv (y1 - y0) (x1 - x0))
      as (p & -> & Hp & Hb); [lra .. |].
    cbn [bind]. do 4 eexists. split; [reflexivity|]. cbn [fst snd].
    repeat split; try lra. apply aspect_round_height, Hb.
  - do 4 eexists. split; [reflexivity|]. cbn [fst snd].
    repeat split; try lra. apply aspect_exact; lra.
  - do 4 eexists. split; [reflexivity|]. cbn [fst snd].
    repeat split; try lra. apply aspect_exact; lra.
  - do 4 eexists. split; [reflexivity|]. cbn [fst snd].
    repeat split; try lra. apply aspect_exact; lra.
  - (* h x y *)
    destruct (scaled_pixels_nonneg hv (x1 - x0) (y1 - y0))
      as (p & -> & Hp & Hb); [lra .. |].
    cbn [bind]. do 4 eexists. split; [reflexivity|]. cbn [fst snd].
    repeat split; try lra. apply aspect_round_width, Hb.
  - do 4 eexists. split; [reflexivity|]. cbn [fst snd].
    repeat split; try lra. apply aspect_exact; lra.
  - do 4 eexists. split; [reflexivity|]. cbn [fst snd].
    repeat split; try lra. apply aspect_exact; lra.
  - do 4 eexists. split; [reflexivity|]. cbn [fst snd].
    repeat split; try lra. apply aspect_exact; lra.
  - (* x y *)
    destruct (Rlt_dec (x1 - x0) (y1 - y0)) as [Hlt|Hge].
    + destruct (scaled_pixels_nonneg 1000 (x1 - x0) (y1 - y0))
        as (p & -> & Hp & Hb); [lra .. |].
      cbn [bind]. do 4 eexists. split; [reflexivity|]. cbn [fst snd].
      repeat split; try lra. apply aspect_round_width, Hb.
    + destruct (scaled_pixels_nonneg 1000 (y1 - y0) (x1 - x0))
        as (p & -> & Hp & Hb); [lra .. |].
      cbn [bind]. do 4 eexists. split; [reflexivity|]. cbn [fst snd].
      repeat split; try lra. apply aspect_round_height, Hb.
  - do 4 eexists. split; [reflexivity|]. cbn [fst snd].
    repeat split; try lra. apply aspect_exact; lra.
  - do 4 eexists. split; [reflexivity|]. cbn [fst snd].
    repeat split; try lra. apply aspect_exact; lra.
  - do 4 eexists. split; [reflexivity|]. cbn [fst snd].
    repeat split; try lra. apply aspect_exact; lra.
Qed.



Lemma factors_difference (w h dx dy : R) :
  0 < dx -> 0 < dy ->
  Rabs (w * dy - h * dx) <= Rmax dx dy / 2 ->
  Rabs (w / dx - h / dy) <= 1 / (2 * Rmin dx dy).
Proof.
  intros Hdx Hdy H.
  assert (Hp : 0 < / (dx * dy)).
  { apply Rinv_0_lt_compat, Rmult_lt_0_compat; assumption. }
  replace (w / dx - h / dy) with ((w * dy - h * dx) * / (dx * dy))
    by (field; lra).
  rewrite Rabs_mult, (Rabs_right (/ (dx * dy))) by lra.
  apply Rle_trans with (Rmax dx dy / 2 * / (dx * dy)).
  - apply Rmult_le_compat_r; [lra | exact H].
  - right. destruct (Rle_dec dx dy) as [Hle|Hgt].
    + rewrite Rmax_right, Rmin_left by assumption. field. lra.
    + rewrite Rmax_left, Rmin_right by lra. field. lra.
Qed.

(** The scale factors a [window] derives from the result of [limits]:
    for positive sizes and increasing ranges the two divisions are
    defined, the factors are not negative, and the pixels per unit in
    [x] and in [y] differ by at most [1 / (2 * min(dx, dy))]. *)
Theorem window_factors_agree (w h : option R) (x y : option (R * R))
    (w' h' : R) (x' y' : R * R) :
  limits_args_positive w h x y ->
  limits w h x y = Ok (w', h', x', y') ->
  exists xfactor yfactor,
    window_factors w' h' x' y'
      = Ok (xfactor, yfactor,
            (0.5 * (fst x' + snd x'), 0.5 * (fst y' + snd y'))) /\
    0 <= xfactor /\ 0 <= yfactor /\
    Rabs (xfactor - yfactor)
      <= 1 / (2 * Rmin (snd x' - fst x') (snd y' - fst y')).
Proof.
  intros Hpos Hlim.
  destruct (limits_positive_result w h x y Hpos)
    as (w2 & h2 & x2 & y2 & Hlim2 & Hw & Hh & Hx & Hy & Hb).
  rewrite Hlim in Hlim2. injection Hlim2 as <- <- <- <-.
  unfold window_factors. rewrite !py_div_defined by lra. cbn [bind].
  do 2 eexists. split; [reflexivity|].
  assert (Hix : 0 < / (snd x' - fst x')) by (apply Rinv_0_lt_compat; lra).
  assert (Hiy : 0 < / (snd y' - fst y')) by (apply Rinv_0_lt_compat; lra).
  split; [apply Rmult_le_pos; lra|].
  split; [apply Rmult_le_pos; lra|].
  apply factors_difference; [lra | lra | exact Hb].
Qed.

Lemma window_factors_agree_witness :
  exists xfactor yfactor,
    window_factors 500 500 (-1, 1) (-1, 1)
      = Ok (xfactor, yfactor, (0.5 * (-1 + 1), 0.5 * (-1 + 1))) /\
    0 <= xfactor /\ 0 <= yfactor /\
    Rabs (xfactor - yfactor) <= 1 / (2 * Rmin (1 - -1) (1 - -1)).
Proof.
  assert (H : limits_args_positive (Some 500) None (Some (-1, 1)) None).
  { unfold limits_args_positive. cbn [fst snd]. repeat split; lra. }
  exact (window_factors_agree (Some 500) None (Some (-1, 1)) None
           500 500 (-1, 1) (-1, 1) H eq_refl).
Defined.

(** ** The streamer of a shape *)

Lemma take_app_take {A : Type} (l m : list A) (n k : nat) :
  (n <= k)%nat -> take n (l ++ take k m) = take n (l ++ m).
Proof.
  revert n. induction l as [|a l IH]; intros n Hn.
  - cbn [app]. rewrite take_take. f_equal. lia.
  - destruct n as [|n]; [reflexivity|].
    cbn [app take]. f_equal. apply IH. lia.
Qed.

Lemma last_cons_default {A : Type} (l : list A) (p d : A) :
  List.last (p :: l) d = List.last l p.
Proof.
  revert p d. induction l as [|a l IH]; intros p d; [reflexivity|].
  change (List.last (p :: a :: l) d) with (List.last (a :: l) d).
  rewrite (IH a d), (IH a p). reflexivity.
Qed.

Lemma shift_then_set (a : list R) (x : R) :
  a <> [] ->
  set_first (shift_right a) x = Ok (take (length a) (x :: a)).
Proof.
  destruct a as [|a0 tl]; [contradiction|]. intros _.
  unfold shift_right. cbn [length].
  replace (S (length tl) - 1)%nat with (length tl) by lia.
  reflexivity.
Qed.

Lemma setpos_streaming (p : R * R) (s : shape_state) :
  streamon s = true -> streamx s <> [] -> streamy s <> [] ->
  setpos p s
    = Ok (ShapeState (trailon s) true
            (take (length (streamx s)) (fst p :: streamx s))
            (take (length (streamy s)) (snd p :: streamy s))
            p (pen s)).
Proof.
  intros Hon Hx Hy. unfold setpos. rewrite Hon.
  cbv zeta. rewrite !shift_then_set by assumption. reflexivity.
Qed.

Lemma setpos_all_streaming (n : nat) (ps : list (R * R)) (s : shape_state) :
  (0 < n)%nat ->
  streamon s = true -> length (streamx s) = n -> length (streamy s) = n ->
  exists s',
    setpos_all ps s = Ok s' /\
    streamon s' = true /\
    trailon s' = trailon s /\
    pen s' = pen s /\
    streamx s' = take n (rev (map fst ps) ++ streamx s) /\
    streamy s' = take n (rev (map snd ps) ++ streamy s) /\
    pos s' = List.last ps (pos s).
Proof.
  intros Hn. revert s. induction ps as [|p ps IH]; intros s Hon Hx Hy.
  - exists s. cbn [setpos_all map rev app List.last].
    assert (Tx : take n (streamx s) = streamx s)
      by (apply take_ge; lia).
    assert (Ty : take n (streamy s) = streamy s)
      by (apply take_ge; lia).
    rewrite Tx, Ty. repeat split; assumption.
  - cbn [setpos_all].
    rewrite setpos_streaming;
      [| assumption | intros E; rewrite E in Hx; cbn in Hx; lia
       | intros E; rewrite E in Hy; cbn in Hy; lia ].
    cbn [bind].
    edestruct IH as (s' & Hrun & Hon' & Htr & Hpen & Hsx & Hsy & Hpos);
      [ | | | exists s'; split; [exact Hrun|] ].
    + reflexivity.
    + cbn [streamx]. rewrite length_take. cbn [length]. lia.
    + cbn [streamy]. rewrite length_take. cbn [length]. lia.
    + cbn [streamx streamy trailon pen pos] in *.
      rewrite Hx in Hsx. rewrite Hy in Hsy.
      rewrite take_app_take in Hsx by lia.
      rewrite take_app_take in Hsy by lia.
      cbn [map rev]. rewrite <- !app_assoc. cbn [app].
      repeat split; try assumption.
      rewrite Hpos. symmetry. apply last_cons_default.
Qed.

(** A streamer of length [n >= 1] holds the [n] most recent positions
    of its shape, newest first: after [trail(True, n)] and any sequence
    of [setpos] calls, the arrays are the first [n] entries of the
    reversed positions followed by copies of the starting position. *)
Theorem streamer_keeps_recent_positions (n : Z) (ps : list (R * R))
    (s : shape_state) :
  (0 < n)%Z ->
  exists s1 s2,
    trail true (Some n) s = Ok s1 /\
    setpos_all ps s1 = Ok s2 /\
    streamon s2 = true /\
    streamx s2
      = take (Z.to_nat n)
          (rev (map fst ps) ++ replicate (Z.to_nat n) (fst (pos s))) /\
    streamy s2
      = take (Z.to_nat n)
          (rev (map snd ps) ++ replicate (Z.to_nat n) (snd (pos s))) /\
    pos s2 = List.last ps (pos s).
Proof.
  intros Hn. unfold trail.
  destruct (Z.eqb_spec n 0) as [E|_]; [lia|].
  destruct (Z.ltb_spec n 0) as [E|_]; [lia|].
  eexists. 
  edestruct (setpos_all_streaming (Z.to_nat n) ps) as
    (s2 & Hrun & Hon & _ & _ & Hsx & Hsy & Hpos);
    [ | | | | exists s2; split; [reflexivity|]; split; [exact Hrun|] ].
  - lia.
  - reflexivity.
  - cbn [streamx]. apply length_replicate.
  - cbn [streamy]. apply length_replicate.
  - cbn [streamx streamy pos] in *. auto.
Qed.

Lemma streamer_keeps_recent_positions_witness :
  exists s1 s2,
    trail true (Some 2%Z) (ShapeState false false [] [] (0, 0) false)
      = Ok s1 /\
    setpos_all [(1, 5); (2, 6); (3, 7)] s1 = Ok s2 /\
    streamon s2 = true /\
    streamx s2 = [3; 2] /\
    streamy s2 = [7; 6] /\
    pos s2 = (3, 7).
Proof.
  exact (streamer_keeps_recent_positions 2 [(1, 5); (2, 6); (3, 7)]
           (ShapeState false false [] [] (0, 0) false) eq_refl).
Defined.

(** ** Color names *)

(** [mapcolor] is idempotent on strings: what it returns for a string is
    a name it returns unchanged, so a color may be mapped again by
    every method it is passed through. *)
Theorem mapcolor_idempotent (color : string) :
  mapcolor (mapcolor color) = mapcolor color.
Proof.
  unfold mapcolor.
  destruct (String.length color =? 1)%nat eqn:E; [| rewrite E; reflexivity].
  repeat match goal with
         | |- context [String.eqb color ?c] =>
             destruct (String.eqb color c) eqn:?; [reflexivity|]
         end.
  rewrite E.
  repeat match goal with
         | H : String.eqb color _ = false |- _ => rewrite H; clear H
         end.
  reflexivity.
Qed.
